(** * p3Heap: a boundary-tag, best-fit heap allocator

    Shallow embedding of [src/p3Heap.c] ([init_heap], [alloc], [free_block]
    and [disp_heap]) and the properties of its block chain.

    - A C [int] is a [Z] kept in the 32-bit two's-complement range: every
      [+] and [-] on [int]s is followed by [wrap].  Signed overflow is
      undefined in C; [wrap] is what the usual compilers produce.
    - A pointer is a [Z], a byte address; [NULL] is [0]; pointer arithmetic
      is plain addition.
    - The heap is a store of [int]-sized cells indexed by byte address: the
      program only reads and writes [blockHeader.size_status] fields, and on
      a heap set up by [init_heap] all of them sit at addresses that are
      multiples of 4.  Only the allocator writes to the store: what a client
      puts into its payloads is not modelled.
    - The globals [heap_start], [alloc_size], [heap_end] and the static
      [allocated_once] are the fields of [state], threaded through calls.
    - The loop of [alloc] need not terminate on an arbitrary store, so
      [alloc] takes fuel; [None] means the fuel ran out.  So does the loop
      of [disp_heap], which returns what it prints: the lines of the block
      list and the three totals. *)

From Stdlib Require Import ZArith List Bool Lia.
Import ListNotations.
Local Open Scope Z_scope.

(** ** Machine integers *)

Definition INT_MAX : Z := 2147483647.

(** Two's-complement reduction of an [int] result. *)
Definition wrap (z : Z) : Z := (z + 2147483648) mod 4294967296 - 2147483648.

(** ** The store *)

Definition memory := Z -> Z.

Definition store (m : memory) (a v : Z) : memory :=
  fun x => if x =? a then v else m x.

(** A fresh [/dev/zero] mapping of [len] bytes at [base]. *)
Definition mmap_zero (m : memory) (base len : Z) : memory :=
  fun x => if (base <=? x) && (x <? base + len) then 0 else m x.

Record state := mkState {
  heap_start : Z;        (* blockHeader *heap_start *)
  alloc_size : Z;        (* int alloc_size *)
  heap_end : Z;          (* char *heap_end *)
  allocated_once : Z;    (* static int allocated_once, in init_heap *)
  mem : memory
}.

Definition NULL : Z := 0.

(** The globals before [init_heap] has run. *)
Definition boot (m : memory) : state :=
  mkState NULL 0 NULL 0 m.

Definition set_heap_end (st : state) (e : Z) : state :=
  mkState (heap_start st) (alloc_size st) e (allocated_once st) (mem st).

Definition set_mem (st : state) (m : memory) : state :=
  mkState (heap_start st) (alloc_size st) (heap_end st) (allocated_once st) m.

(** ** Block codec: the bit fields of [size_status] *)

Definition size_of (h : Z) : Z := Z.land h (Z.lnot 3).      (* h & ~0x3 *)
Definition a_bit (h : Z) : Z := Z.land h 1.                  (* h & 0x1 *)
Definition p_bit (h : Z) : Z := Z.land h 2.                  (* h & 0x2 *)

(** ** [alloc] (lines 111-195) *)

(** Outcome of the best-fit loop: it either returned from inside the loop
    on an exact match, or ran to the end with [bestFit] (possibly [NULL]). *)
Inductive search :=
| Exact (m : memory) (payload : Z)
| Best (bestFit : Z).

Fixpoint best_fit_loop (fuel : nat) (m : memory) (heap_end size : Z)
    (current bestFit bestSize : Z) : option search :=
  match fuel with
  | O => None
  | S fuel' =>
    if (current <? heap_end) && negb (m current =? 1) then
      let blockSize := size_of (m current) in
      let nextHeader := current + blockSize in
      if blockSize <? size then
        best_fit_loop fuel' m heap_end size nextHeader bestFit bestSize
      else if a_bit (m current) =? 0 then
        if blockSize =? size then
          let m1 := store m current (wrap (m current + 1)) in
          let m2 :=
            if (nextHeader <? heap_end) && (p_bit (m1 nextHeader) =? 0)
            then store m1 nextHeader (wrap (m1 nextHeader + 2))
            else m1 in
          Some (Exact m2 (current + 4))
        else if (blockSize >=? size) && (blockSize <? bestSize) then
          best_fit_loop fuel' m heap_end size nextHeader current blockSize
        else
          best_fit_loop fuel' m heap_end size nextHeader bestFit bestSize
      else
        best_fit_loop fuel' m heap_end size nextHeader bestFit bestSize
    else Some (Best bestFit)
  end.

(** The block size computed from the request: header added, rounded up. *)
Definition block_size (size : Z) : Z :=
  let size := wrap (size + 4) in
  if negb (Z.rem size 8 =? 0) then wrap (size + wrap (8 - Z.rem size 8))
  else size.

(** Splitting [bestFit] after the loop. *)
Definition split_block (m : memory) (bestFit size : Z) : memory :=
  let totalFreeSize := size_of (m bestFit) in
  let bestFitSize := wrap (totalFreeSize - size) in
  let newBlock := bestFit in
  let m1 := store m newBlock (wrap (wrap (size + p_bit (m bestFit)) + 1)) in
  let bestFit := newBlock + size in
  let m2 := store m1 (bestFit + bestFitSize - 4) bestFitSize in
  store m2 bestFit (Z.lor bestFitSize (p_bit (m2 newBlock))).

(** [alloc fuel st size]: [None] when the loop has not finished within
    [fuel] iterations, else the new state and the returned pointer. *)
Definition alloc (fuel : nat) (st : state) (size : Z) : option (state * Z) :=
  if size <? 1 then Some (st, NULL)
  else
    let size := block_size size in
    let current := heap_start st in
    let st := set_heap_end st (heap_start st + alloc_size st) in
    match best_fit_loop fuel (mem st) (heap_end st) size current NULL INT_MAX with
    | None => None
    | Some (Exact m p) => Some (set_mem st m, p)
    | Some (Best bestFit) =>
      if negb (bestFit =? NULL) then
        Some (set_mem st (split_block (mem st) bestFit size), bestFit + 4)
      else Some (st, NULL)
    end.

(** ** [free_block] (lines 214-278) *)

(** "If the next block is free, coalesce it into ptr": the store and
    [ptr_size] afterwards. *)
Definition coalesce_next (m : memory) (ptr_header ptr_size : Z)
    : memory * Z :=
  let next_header := ptr_header + ptr_size in
  if a_bit (m next_header) =? 0 then
    let next_size := size_of (m next_header) in
    let ptr_size := wrap (ptr_size + next_size) in
    (store m ptr_header (Z.lor ptr_size (p_bit (m ptr_header))), ptr_size)
  else (m, ptr_size).

(** "Check if previous block is free, if so we will coalesce it into ptr":
    the store, [ptr_header] and [ptr_size] afterwards. *)
Definition coalesce_prev (m : memory) (ptr_header ptr_size : Z)
    : memory * Z * Z :=
  if p_bit (m ptr_header) =? 0 then
    let prev_footer := ptr_header - 4 in
    let prev_header := ptr_header - m prev_footer in
    let ptr_size := wrap (ptr_size + m prev_footer) in
    (store m prev_header (Z.lor ptr_size (p_bit (m prev_header))),
     prev_header, ptr_size)
  else (m, ptr_header, ptr_size).

(** "Now that all coalescing is done, properly set p-bit of next_header". *)
Definition clear_next_p_bit (m : memory) (ptr_header ptr_size : Z) : memory :=
  let next_header := ptr_header + ptr_size in
  if negb (size_of (m next_header) =? 0)
  then store m next_header (Z.land (m next_header) (Z.lnot 2))
  else m.

(** "Assign a footer to ptr". *)
Definition write_footer (m : memory) (heap_end ptr_header ptr_size : Z)
    : memory :=
  let ptr_footer := ptr_header + ptr_size - 4 in
  if ptr_footer <? heap_end then store m ptr_footer ptr_size else m.

Definition free_block (st : state) (ptr : Z) : state * Z :=
  if (ptr =? NULL) || negb (ptr mod 8 =? 0) then (st, -1)
  else
    let st := set_heap_end st (heap_start st + alloc_size st) in
    if (ptr <? heap_start st) || (ptr >=? heap_end st) then (st, -1)
    else
      let m := mem st in
      let ptr_header := ptr - 4 in
      if a_bit (m ptr_header) =? 0 then (st, -1)
      else
        let m := store m ptr_header (Z.land (m ptr_header) (Z.lnot 1)) in
        let ptr_size := size_of (m ptr_header) in
        let '(m, ptr_size) := coalesce_next m ptr_header ptr_size in
        let '(m, ptr_header, ptr_size) := coalesce_prev m ptr_header ptr_size in
        let m := clear_next_p_bit m ptr_header ptr_size in
        let m := write_footer m (heap_end st) ptr_header ptr_size in
        (set_mem st m, 0).

(** ** [init_heap] (lines 288-358) *)

(** What the operating system answers to [open] and [mmap]. *)
Inductive os_reply :=
| OpenFails
| MmapFails
| Mapped (mmap_ptr : Z).

Definition init_heap (pagesize : Z) (os : os_reply) (st : state)
    (sizeOfRegion : Z) : state * Z :=
  if negb (allocated_once st =? 0) then (st, -1)
  else if sizeOfRegion <=? 0 then (st, -1)
  else
    let padsize := Z.rem sizeOfRegion pagesize in
    let padsize := Z.rem (wrap (pagesize - padsize)) pagesize in
    let alloc_size := wrap (sizeOfRegion + padsize) in
    match os with
    | OpenFails =>
      (mkState (heap_start st) alloc_size (heap_end st) 0 (mem st), -1)
    | MmapFails =>
      (mkState (heap_start st) alloc_size (heap_end st) 0 (mem st), -1)
    | Mapped mmap_ptr =>
      let m := mmap_zero (mem st) mmap_ptr alloc_size in
      let alloc_size := wrap (alloc_size - 8) in
      let heap_start := mmap_ptr + 4 in
      let end_mark := heap_start + alloc_size in
      let m := store m end_mark 1 in
      let m := store m heap_start alloc_size in
      let m := store m heap_start (wrap (m heap_start + 2)) in
      let footer := heap_start + alloc_size - 4 in
      let m := store m footer alloc_size in
      (mkState heap_start alloc_size (heap_end st) 1 m, 0)
    end.

(** ** Sequences of calls *)

Inductive call :=
| Alloc (size : Z)
| Free (ptr : Z).

Definition step (fuel : nat) (st : state) (c : call) : option state :=
  match c with
  | Alloc size =>
    match alloc fuel st size with
    | Some (st', _) => Some st'
    | None => None
    end
  | Free ptr => Some (fst (free_block st ptr))
  end.

Fixpoint run (fuel : nat) (st : state) (cs : list call) : option state :=
  match cs with
  | [] => Some st
  | c :: cs' =>
    match step fuel st c with
    | Some st' => run fuel st' cs'
    | None => None
    end
  end.

(** * The block chain as a list *)

(** A block of the chain: its size and whether it is allocated. *)
Definition block := (Z * bool)%type.

(** The header word of a block of size [s] whose predecessor has status
    [p] and whose own status is [al]. *)
Definition hdr (s : Z) (p al : bool) : Z :=
  s + (if p then 2 else 0) + (if al then 1 else 0).

Fixpoint total (bl : list block) : Z :=
  match bl with
  | [] => 0
  | (s, _) :: r => s + total r
  end.

(** Status of the last block of [bl], [p] when [bl] is empty. *)
Fixpoint last_status (p : bool) (bl : list block) : bool :=
  match bl with
  | [] => p
  | (_, al) :: r => last_status al r
  end.

(** [chain m a p bl]: from address [a] on, the store holds the blocks [bl]
    back to back; the block before [a] has status [p].  A free block carries
    its footer and never follows a free block. *)
Fixpoint chain (m : memory) (a : Z) (p : bool) (bl : list block) : Prop :=
  match bl with
  | [] => True
  | (s, al) :: r =>
    8 <= s /\ s mod 8 = 0 /\ m a = hdr s p al /\
    (al = false -> p = true /\ m (a + s - 4) = s) /\
    chain m (a + s) al r
  end.

(** Address, size and status of every block of [bl] laid out from [a]. *)
Fixpoint layout (a : Z) (bl : list block) : list (Z * Z * bool) :=
  match bl with
  | [] => []
  | (s, al) :: r => (a, s, al) :: layout (a + s) r
  end.

(** ** Walking the chain, as [disp_heap] does (lines 394-427) *)

(** The traversal of [disp_heap]: the blocks met before the first header
    equal to [1], and the address of that header. *)
Fixpoint walk (fuel : nat) (m : memory) (current : Z)
    : option (list block * Z) :=
  match fuel with
  | O => None
  | S fuel' =>
    if negb (m current =? 1) then
      let t_size := m current in
      let is_used := negb (Z.land t_size 1 =? 0) in
      let t_size := if is_used then wrap (t_size - 1) else t_size in
      let t_size :=
        if negb (Z.land t_size 2 =? 0) then wrap (t_size - 2) else t_size in
      match walk fuel' m (current + t_size) with
      | Some (bl, e) => Some ((t_size, is_used) :: bl, e)
      | None => None
      end
    else Some ([], current)
  end.

(** * Specification of the chain *)

(** ** Well-formed heaps *)

(** The invariants of the data model, for a heap whose chain is [bl]: the
    first header is at an address congruent to 4 modulo 8 (so payloads are
    8-byte aligned); the blocks of [bl] lie back to back from [heap_start]
    and fill [alloc_size] bytes; the word after them is the end mark [1];
    and every word at a header-aligned address of the arena whose a-bit is
    set is the header of an allocated block of the chain (the old headers
    that [alloc] and [free_block] leave inside blocks all have a clear
    a-bit, which is what lets [free_block] reject them). *)
Record well_formed (st : state) (bl : list block) : Prop := {
  wf_start : 0 <= heap_start st /\ heap_start st mod 8 = 4;
  wf_size : alloc_size st + 3 <= INT_MAX;
  wf_total : total bl = alloc_size st;
  wf_chain : chain (mem st) (heap_start st) true bl;
  wf_end : mem st (heap_start st + alloc_size st) = 1;
  wf_stale : forall x,
    heap_start st <= x < heap_start st + alloc_size st ->
    x mod 8 = 4 -> a_bit (mem st x) <> 0 ->
    exists s, In (x, s, true) (layout (heap_start st) bl)
}.

(** The value [alloc] and [free_block] give to [heap_end]. *)
Definition heap_limit (st : state) : Z := heap_start st + alloc_size st.

(** ** The best-fit search on the block list *)

(** The best-fit loop read on the block list: [inl a] when it returns on
    the exact match at [a], [inr best] when it runs to the end. *)
Fixpoint scan (size a : Z) (bl : list block) (best : option (Z * Z))
    : Z + option (Z * Z) :=
  match bl with
  | [] => inr best
  | (s, al) :: r =>
    if s <? size then scan size (a + s) r best
    else if negb al then
      if s =? size then inl a
      else if match best with None => true | Some (_, bs) => s <? bs end
      then scan size (a + s) r (Some (a, s))
      else scan size (a + s) r best
    else scan size (a + s) r best
  end.

(** [bestFit] and [bestSize] as the loop holds them. *)
Definition best_ptr (best : option (Z * Z)) : Z :=
  match best with None => NULL | Some (x, _) => x end.

Definition best_size (best : option (Z * Z)) : Z :=
  match best with None => INT_MAX | Some (_, s) => s end.

(** The store after the exact-match branch at [x]. *)
Definition exact_fit (m : memory) (he x size : Z) : memory :=
  let m1 := store m x (wrap (m x + 1)) in
  if (x + size <? he) && (p_bit (m1 (x + size)) =? 0)
  then store m1 (x + size) (wrap (m1 (x + size) + 2))
  else m1.

(** ** Best fit, declaratively *)

(** From the specification: among the free blocks whose size is at least
    [size], the block at [x] of size [s] has the smallest size, and among
    those of that size it is the first in address order. *)
Definition best_fit (size : Z) (lay : list (Z * Z * bool)) (x s : Z) : Prop :=
  In (x, s, false) lay /\ size <= s /\
  forall x' s', In (x', s', false) lay -> size <= s' ->
    s < s' \/ (s = s' /\ x <= x').

(** No free block is as large as [size]. *)
Definition no_fit (size : Z) (lay : list (Z * Z * bool)) : Prop :=
  forall x s, In (x, s, false) lay -> s < size.

(** What [scan] knows about the blocks [pre] it has passed. *)
Definition scan_inv (size : Z) (pre : list (Z * Z * bool))
    (best : option (Z * Z)) : Prop :=
  match best with
  | None => no_fit size pre
  | Some (bx, bs) => best_fit size pre bx bs
  end.

(** From the specification: the request plus one 4-byte header word,
    rounded up to the next multiple of 8. *)
Definition required_size (n : Z) : Z := (n + 4 + 7) / 8 * 8.

(** ** Coalescing on the block list *)

(** A free block at the head of [l2] is absorbed: its size, and what is
    left of [l2]. *)
Definition merge_fwd (l2 : list block) : Z * list block :=
  match l2 with
  | (s2, false) :: r2 => (s2, r2)
  | _ => (0, l2)
  end.

(** A free block at the end of [l1] is absorbed: what is left of [l1], and
    its size. *)
Fixpoint merge_bwd (l1 : list block) : list block * Z :=
  match l1 with
  | [] => ([], 0)
  | (s0, al0) :: r =>
    match r with
    | [] => if al0 then ([(s0, al0)], 0) else ([], s0)
    | _ => let '(f, z) := merge_bwd r in ((s0, al0) :: f, z)
    end
  end.

(** The chain after releasing the allocated block of size [s] that sits
    between [l1] and [l2]. *)
Definition release_list (l1 : list block) (s : Z) (l2 : list block)
    : list block :=
  let '(front, sb) := merge_bwd l1 in
  let '(sf, rest) := merge_fwd l2 in
  front ++ (sb + s + sf, false) :: rest.

(** No two neighbours of the list are both free. *)
Fixpoint no_adjacent_free (bl : list block) : Prop :=
  match bl with
  | (_, false) :: (((_, false) :: _)) => False
  | _ :: r => no_adjacent_free r
  | [] => True
  end.

(** ** Initialisation *)

(** From the specification: the requested size rounded up to the next
    multiple of the page size. *)
Definition page_round (n pagesize : Z) : Z :=
  (n + pagesize - 1) / pagesize * pagesize.

(** The store [init_heap] leaves behind on a mapping of [R] bytes at
    [base]. *)
Definition init_mem (st : state) (base R : Z) : memory :=
  store (store (store (store (mmap_zero (mem st) base R) (base + 4 + (R - 8)) 1)
                      (base + 4) (R - 8))
               (base + 4) (hdr (R - 8) true false))
        (base + 4 + (R - 8) - 4) (R - 8).

(** ** Reachable heaps *)

(** The request of a call fits in an [int] once the header is added and the
    sum rounded up; beyond that [size += 4] or the rounding overflows, which
    C leaves undefined. *)
Definition in_range (c : call) : Prop :=
  match c with
  | Alloc n => required_size n <= INT_MAX
  | Free _ => True
  end.

(** A heap as the program can have it: [init_heap] succeeded on a
    page-aligned mapping, then [alloc] and [free_block] were called. *)
Inductive reachable : state -> Prop :=
| reach_init pagesize base st0 n st :
    8 < pagesize -> pagesize mod 8 = 0 ->
    0 <= base -> base mod pagesize = 0 ->
    page_round n pagesize <= INT_MAX ->
    init_heap pagesize (Mapped base) st0 n = (st, 0) ->
    reachable st
| reach_alloc fuel st n st' p :
    reachable st -> required_size n <= INT_MAX ->
    alloc fuel st n = Some (st', p) ->
    reachable st'
| reach_free st ptr :
    reachable st -> reachable (fst (free_block st ptr)).

(** ** Concrete heaps *)

(** One page mapped at [0x10000]. *)
Definition heap0 : state :=
  fst (init_heap 4096 (Mapped 65536) (boot (fun _ => 0)) 4096).

(** The heap after the calls [cs], and after one [alloc]. *)
Definition run_or (st : state) (cs : list call) : state :=
  match run 1000 st cs with Some st' => st' | None => st end.

Definition state_after_alloc (fuel : nat) (st : state) (n : Z) : state :=
  match alloc fuel st n with Some (st', _) => st' | None => st end.

(** Free blocks of 16, 40 and 24 bytes, kept apart by allocated blocks. *)
Definition heap_16_40_24 : state :=
  run_or heap0 [Alloc 12; Alloc 4; Alloc 36; Alloc 4; Alloc 20; Alloc 4;
                Free 65544; Free 65568; Free 65616].

(** The same with the 24-byte block still allocated. *)
Definition heap_16_40 : state :=
  run_or heap0 [Alloc 12; Alloc 4; Alloc 36; Alloc 4; Alloc 20; Alloc 4;
                Free 65544; Free 65568].

(** A block of 16 bytes allocated at the start of the fresh heap. *)
Definition heap_one_block : state := state_after_alloc 100 heap0 8.

(** The fresh heap with all of its 4088 bytes allocated. *)
Definition heap_full : state := state_after_alloc 100 heap0 4084.

(** * The report of [disp_heap] *)

(** One line of the block list (printed on line 422): serial number,
    status, status of the previous block, first and last byte, size. *)
Record line := mkLine {
  l_counter : Z;
  l_used : bool;
  l_prev_used : bool;
  l_begin : Z;
  l_end : Z;
  l_size : Z
}.

(** The loop of [disp_heap] (lines 394-427): the lines printed from
    [current] on and the two totals, [None] when the fuel runs out before a
    header equal to [1] is met. *)
Fixpoint disp_loop (fuel : nat) (m : memory)
    (current counter used_size free_size : Z)
    : option (list line * Z * Z) :=
  match fuel with
  | O => None
  | S fuel' =>
    if negb (m current =? 1) then
      let t_begin := current in
      let t_size := m current in
      let is_used := negb (Z.land t_size 1 =? 0) in
      let t_size := if is_used then wrap (t_size - 1) else t_size in
      let p_used := negb (Z.land t_size 2 =? 0) in
      let t_size := if p_used then wrap (t_size - 2) else t_size in
      let used_size :=
        if is_used then wrap (used_size + t_size) else used_size in
      let free_size :=
        if is_used then free_size else wrap (free_size + t_size) in
      let t_end := t_begin + t_size - 1 in
      match disp_loop fuel' m (current + t_size) (wrap (counter + 1))
                      used_size free_size with
      | Some (ls, u, f) =>
        Some (mkLine counter is_used p_used t_begin t_end t_size :: ls, u, f)
      | None => None
      end
    else Some ([], used_size, free_size)
  end.

(** What [disp_heap] prints: the block list, then the used size, the free
    size and their sum (lines 433-435). *)
Record report := mkReport {
  r_lines : list line;
  r_used : Z;
  r_free : Z;
  r_total : Z
}.

Definition disp_heap (fuel : nat) (st : state) : option report :=
  match disp_loop fuel (mem st) (heap_start st) 1 0 0 with
  | Some (ls, u, f) => Some (mkReport ls u f (wrap (u + f)))
  | None => None
  end.

(** ** The report read on the block list *)

(** The bytes of the allocated blocks of [bl], and those of its free
    blocks. *)
Fixpoint used_total (bl : list block) : Z :=
  match bl with
  | [] => 0
  | (s, al) :: r => (if al then s else 0) + used_total r
  end.

Fixpoint free_total (bl : list block) : Z :=
  match bl with
  | [] => 0
  | (s, al) :: r => (if al then 0 else s) + free_total r
  end.

(** The lines for the blocks [bl] laid out from [a], numbered from [k],
    when the block before [a] has status [p]. *)
Fixpoint lines_of (k a : Z) (p : bool) (bl : list block) : list line :=
  match bl with
  | [] => []
  | (s, al) :: r =>
    mkLine k al p a (a + s - 1) s :: lines_of (k + 1) (a + s) al r
  end.

(** * Proofs *)

(** ** Bit-field arithmetic *)

Lemma ldiff_sub (a b : Z) : Z.ldiff a b = a - Z.land a b.
Proof.
  assert (H : Z.land (Z.ldiff a b) (Z.land a b) = 0).
  { rewrite (Z.land_comm a b), Z.land_assoc, Z.land_ldiff. apply Z.land_0_l. }
  pose proof (Z.lor_ldiff_and a b) as E.
  rewrite <- (Z.lxor_lor _ _ H), <- (Z.add_nocarry_lxor _ _ H) in E. lia.
Qed.

Lemma land_lnot_sub (a b : Z) : Z.land a (Z.lnot b) = a - Z.land a b.
Proof. rewrite <- Z.ldiff_land. apply ldiff_sub. Qed.

Lemma lor_add (a b : Z) : Z.land a b = 0 -> Z.lor a b = a + b.
Proof.
  intro H. rewrite <- (Z.lxor_lor _ _ H). symmetry.
  now apply Z.add_nocarry_lxor.
Qed.

Lemma a_bit_mod (h : Z) : a_bit h = h mod 2.
Proof. unfold a_bit. change 1 with (Z.ones 1). now rewrite Z.land_ones. Qed.

Lemma land3_mod (h : Z) : Z.land h 3 = h mod 4.
Proof. change 3 with (Z.ones 2). now rewrite Z.land_ones. Qed.

Lemma p_bit_mod (h : Z) : p_bit h = h mod 4 - h mod 2.
Proof.
  unfold p_bit. change (Z.land h 2) with (Z.land h (Z.land 3 (Z.lnot 1))).
  rewrite Z.land_assoc, land_lnot_sub, land3_mod.
  fold (a_bit (h mod 4)). rewrite a_bit_mod.
  Z.div_mod_to_equations. lia.
Qed.

Lemma size_of_mod (h : Z) : size_of h = h - h mod 4.
Proof. unfold size_of. now rewrite land_lnot_sub, land3_mod. Qed.

Lemma clear_a_mod (h : Z) : Z.land h (Z.lnot 1) = h - h mod 2.
Proof. rewrite land_lnot_sub. fold (a_bit h). now rewrite a_bit_mod. Qed.

Lemma clear_p_mod (h : Z) : Z.land h (Z.lnot 2) = h - (h mod 4 - h mod 2).
Proof. rewrite land_lnot_sub. fold (p_bit h). now rewrite p_bit_mod. Qed.

Lemma lor_p_bit (s h : Z) : s mod 4 = 0 -> Z.lor s (p_bit h) = s + p_bit h.
Proof.
  intro Hs. apply lor_add. unfold p_bit.
  rewrite (Z.land_comm h 2), Z.land_assoc. fold (p_bit s).
  rewrite p_bit_mod.
  replace (s mod 4 - s mod 2) with 0; [apply Z.land_0_l|].
  Z.div_mod_to_equations. lia.
Qed.

Ltac modarith := Z.div_mod_to_equations; lia.

Ltac split_all := repeat match goal with |- _ /\ _ => split end.

Section Codec.
Variables (s : Z) (p al : bool).
Hypothesis Hs : s mod 8 = 0.

Lemma size_of_hdr : size_of (hdr s p al) = s.
Proof. rewrite size_of_mod. unfold hdr. destruct p, al; modarith. Qed.

Lemma a_bit_hdr : a_bit (hdr s p al) = if al then 1 else 0.
Proof. rewrite a_bit_mod. unfold hdr. destruct p, al; modarith. Qed.

Lemma p_bit_hdr : p_bit (hdr s p al) = if p then 2 else 0.
Proof. rewrite p_bit_mod. unfold hdr. destruct p, al; modarith. Qed.

Lemma clear_a_hdr : Z.land (hdr s p al) (Z.lnot 1) = hdr s p false.
Proof. rewrite clear_a_mod. unfold hdr. destruct p, al; modarith. Qed.

Lemma clear_p_hdr : Z.land (hdr s p al) (Z.lnot 2) = hdr s false al.
Proof. rewrite clear_p_mod. unfold hdr. destruct p, al; modarith. Qed.

Lemma lor_p_hdr (h : Z) : Z.lor s (p_bit h) = s + p_bit h.
Proof. apply lor_p_bit. modarith. Qed.
End Codec.

(** ** The store and the chain *)

Lemma store_eq m a v : store m a v a = v.
Proof. unfold store. now rewrite Z.eqb_refl. Qed.

Lemma store_neq m a v x : x <> a -> store m a v x = m x.
Proof. unfold store. intro H. apply Z.eqb_neq in H. now rewrite H. Qed.

Lemma wrap_small z : -2147483648 <= z <= INT_MAX -> wrap z = z.
Proof. unfold wrap, INT_MAX. intros. Z.div_mod_to_equations. lia. Qed.

Lemma total_app l1 l2 : total (l1 ++ l2) = total l1 + total l2.
Proof. induction l1 as [|[s al] r IH]; simpl; lia. Qed.

Lemma last_status_app p l1 l2 :
  last_status p (l1 ++ l2) = last_status (last_status p l1) l2.
Proof. revert p. induction l1 as [|[s al] r IH]; simpl; auto. Qed.

Lemma chain_total_nonneg m a p bl : chain m a p bl -> 0 <= total bl.
Proof.
  revert a p. induction bl as [|[s al] r IH]; simpl; intros a p H; [lia|].
  destruct H as (? & _ & _ & _ & H). apply IH in H. lia.
Qed.

Lemma chain_frame m m' a p bl :
  chain m a p bl ->
  (forall x, a <= x < a + total bl -> m' x = m x) ->
  chain m' a p bl.
Proof.
  revert a p. induction bl as [|[s al] r IH]; simpl; intros a p H E; auto.
  destruct H as (H8 & Hm & Hh & Hf & Hr).
  pose proof (chain_total_nonneg _ _ _ _ Hr).
  repeat split; auto.
  - rewrite E; auto. lia.
  - apply Hf; auto.
  - rewrite E by lia. apply Hf; auto.
  - apply IH; auto. intros. apply E. lia.
Qed.

Lemma chain_app m a p l1 l2 :
  chain m a p (l1 ++ l2) <->
  chain m a p l1 /\ chain m (a + total l1) (last_status p l1) l2.
Proof.
  revert a p. induction l1 as [|[s al] r IH]; simpl; intros a p.
  - rewrite Z.add_0_r. tauto.
  - rewrite IH. replace (a + (s + total r)) with (a + s + total r) by lia. tauto.
Qed.

Lemma layout_app a l1 l2 :
  layout a (l1 ++ l2) = layout a l1 ++ layout (a + total l1) l2.
Proof.
  revert a. induction l1 as [|[s al] r IH]; simpl; intro a.
  - now rewrite Z.add_0_r.
  - rewrite IH. now replace (a + (s + total r)) with (a + s + total r) by lia.
Qed.

Lemma in_layout a bl x s al :
  In (x, s, al) (layout a bl) ->
  exists l1 l2, bl = l1 ++ (s, al) :: l2 /\ x = a + total l1.
Proof.
  revert a. induction bl as [|[s0 al0] r IH]; simpl; intros a H; [easy|].
  destruct H as [H|H].
  - inversion H; subst. exists [], r. simpl. split; auto. lia.
  - apply IH in H. destruct H as (l1 & l2 & -> & ->).
    exists ((s0, al0) :: l1), l2. simpl. split; auto. lia.
Qed.

Lemma layout_in a l1 s al l2 :
  In (a + total l1, s, al) (layout a (l1 ++ (s, al) :: l2)).
Proof. rewrite layout_app. apply in_or_app. right. simpl. auto. Qed.

Lemma hdr_ge s p al : 8 <= s -> 8 <= hdr s p al <= s + 3.
Proof. unfold hdr. destruct p, al; lia. Qed.

Lemma best_fit_loop_scan m he size bl : forall fuel a p best,
  chain m a p bl ->
  a + total bl = he ->
  total bl < INT_MAX ->
  (length bl < fuel)%nat ->
  best_fit_loop fuel m he size a (best_ptr best) (best_size best) =
  Some (match scan size a bl best with
        | inl x => Exact (exact_fit m he x size) (x + 4)
        | inr b => Best (best_ptr b)
        end).
Proof.
  induction bl as [|[s al] r IH]; intros fuel a p best Hc He Hb Hf;
    (destruct fuel as [|fuel]; [simpl in Hf; lia|]); simpl in *.
  - replace (a <? he) with false by (symmetry; apply Z.ltb_ge; lia).
    reflexivity.
  - destruct Hc as (H8 & Hm & Hh & Hfree & Hr).
    pose proof (chain_total_nonneg _ _ _ _ Hr) as Hnn.
    pose proof (hdr_ge s p al H8) as Hge.
    replace (a <? he) with true by (symmetry; apply Z.ltb_lt; lia).
    replace (m a =? 1) with false by (symmetry; apply Z.eqb_neq; lia).
    simpl. rewrite Hh, size_of_hdr, a_bit_hdr by assumption.
    assert (Hrec : forall b, best_fit_loop fuel m he size (a + s)
                    (best_ptr b) (best_size b) =
                  Some (match scan size (a + s) r b with
                        | inl x => Exact (exact_fit m he x size) (x + 4)
                        | inr b' => Best (best_ptr b')
                        end)).
    { intro b. apply IH with (p := al); auto; lia. }
    destruct (s <? size) eqn:Hlt; [apply Hrec|].
    destruct al; simpl; [apply Hrec|].
    destruct (s =? size) eqn:Heq.
    + apply Z.eqb_eq in Heq. subst size. unfold exact_fit. rewrite Hh.
      reflexivity.
    + replace (s >=? size) with true
        by (symmetry; apply Z.geb_le; apply Z.ltb_ge in Hlt; lia).
      simpl. destruct best as [[bx bs]|]; simpl.
      * destruct (s <? bs); [apply (Hrec (Some (a, s)))|apply (Hrec (Some (bx, bs)))].
      * replace (s <? INT_MAX) with true by (symmetry; apply Z.ltb_lt; lia).
        apply (Hrec (Some (a, s))).
Qed.

(** ** The best-fit search *)

Lemma layout_ge a bl x s al :
  Forall (fun b : block => 0 < fst b) bl ->
  In (x, s, al) (layout a bl) -> a <= x.
Proof.
  intros Hp. revert a. induction Hp as [|[s0 al0] r H0 Hr IH]; simpl; intros a H.
  - easy.
  - destruct H as [H|H]; [inversion H; lia|]. apply IH in H. simpl in H0. lia.
Qed.

Lemma chain_pos m a p bl :
  chain m a p bl -> Forall (fun b : block => 0 < fst b) bl.
Proof.
  revert a p. induction bl as [|[s al] r IH]; simpl; intros a p H; constructor.
  - simpl. lia.
  - destruct H as (_ & _ & _ & _ & H). eauto.
Qed.

Lemma scan_spec size bl : forall a best pre,
  Forall (fun b : block => 0 < fst b) bl ->
  (forall x s al, In (x, s, al) pre -> x < a) ->
  (forall x s, In (x, s, false) pre -> s <> size) ->
  scan_inv size pre best ->
  match scan size a bl best with
  | inl x => best_fit size (pre ++ layout a bl) x size
  | inr None => no_fit size (pre ++ layout a bl)
  | inr (Some (bx, bs)) =>
    best_fit size (pre ++ layout a bl) bx bs /\ size < bs
  end.
Proof.
  induction bl as [|[s al] r IH]; intros a best pre Hp Hlt Hne Hinv; simpl.
  - rewrite app_nil_r. destruct best as [[bx bs]|]; simpl in *; auto.
    split; auto. destruct Hinv as (Hin & Hle & _).
    apply Hne in Hin. lia.
  - inversion Hp as [|? ? Hs Hp']; subst. simpl in Hs.
    assert (Hlt' : forall x s0 al0,
               In (x, s0, al0) (pre ++ [(a, s, al)]) -> x < a + s).
    { intros x s0 al0 Hin. apply in_app_or in Hin. destruct Hin as [Hin|[Hin|[]]].
      - apply Hlt in Hin. lia.
      - inversion Hin; lia. }
    assert (Hstep : forall b,
               (forall x s0, In (x, s0, false) (pre ++ [(a, s, al)]) -> s0 <> size) ->
               scan_inv size (pre ++ [(a, s, al)]) b ->
               match scan size (a + s) r b with
               | inl x => best_fit size (pre ++ (a, s, al) :: layout (a + s) r) x size
               | inr None => no_fit size (pre ++ (a, s, al) :: layout (a + s) r)
               | inr (Some (bx, bs)) =>
                 best_fit size (pre ++ (a, s, al) :: layout (a + s) r) bx bs /\ size < bs
               end).
    { intros b Hne' Hb.
      replace (pre ++ (a, s, al) :: layout (a + s) r)
        with ((pre ++ [(a, s, al)]) ++ layout (a + s) r)
        by (rewrite <- app_assoc; reflexivity).
      apply IH; auto. }
    destruct (s <? size) eqn:E1.
    { apply Z.ltb_lt in E1. apply Hstep.
      - intros x s0 Hin. apply in_app_or in Hin. destruct Hin as [Hin|[Hin|[]]].
        + eauto.
        + inversion Hin; lia.
      - destruct best as [[bx bs]|]; simpl in *.
        + destruct Hinv as (Hin & Hle & Hmin). repeat split; auto.
          * apply in_or_app; auto.
          * intros x' s' Hin' Hle'. apply in_app_or in Hin'.
            destruct Hin' as [Hin'|[Hin'|[]]]; [eauto|inversion Hin'; lia].
        + intros x s0 Hin. apply in_app_or in Hin.
          destruct Hin as [Hin|[Hin|[]]]; [eauto|inversion Hin; lia]. }
    apply Z.ltb_ge in E1.
    destruct al; simpl.
    { apply Hstep.
      - intros x s0 Hin. apply in_app_or in Hin. destruct Hin as [Hin|[Hin|[]]].
        + eauto.
        + inversion Hin.
      - destruct best as [[bx bs]|]; simpl in *.
        + destruct Hinv as (Hin & Hle & Hmin). repeat split; auto.
          * apply in_or_app; auto.
          * intros x' s' Hin' Hle'. apply in_app_or in Hin'.
            destruct Hin' as [Hin'|[Hin'|[]]]; [eauto|inversion Hin'].
        + intros x s0 Hin. apply in_app_or in Hin.
          destruct Hin as [Hin|[Hin|[]]]; [eauto|inversion Hin]. }
    destruct (s =? size) eqn:E2.
    { apply Z.eqb_eq in E2. subst s. repeat split.
      - apply in_or_app. right. left. reflexivity.
      - lia.
      - intros x' s' Hin' Hle'. apply in_app_or in Hin'.
        destruct Hin' as [Hin'|[Hin'|Hin']].
        + apply Hne in Hin'. lia.
        + inversion Hin'; subst. lia.
        + apply layout_ge in Hin'; auto. lia. }
    apply Z.eqb_neq in E2.
    assert (Hne' : forall x s0,
               In (x, s0, false) (pre ++ [(a, s, false)]) -> s0 <> size).
    { intros x s0 Hin. apply in_app_or in Hin. destruct Hin as [Hin|[Hin|[]]].
      - eauto.
      - inversion Hin; lia. }
    destruct best as [[bx bs]|]; simpl in Hinv.
    + destruct Hinv as (Hin & Hle & Hmin).
      destruct (s <? bs) eqn:E3; apply Hstep; auto; simpl.
      * apply Z.ltb_lt in E3. repeat split.
        -- apply in_or_app. right. left. reflexivity.
        -- lia.
        -- intros x' s' Hin' Hle'. apply in_app_or in Hin'.
           destruct Hin' as [Hin'|[Hin'|[]]].
           ++ destruct (Hmin _ _ Hin' Hle'); lia.
           ++ inversion Hin'; subst. lia.
      * apply Z.ltb_ge in E3. repeat split; auto.
        -- apply in_or_app; auto.
        -- intros x' s' Hin' Hle'. apply in_app_or in Hin'.
           destruct Hin' as [Hin'|[Hin'|[]]]; [eauto|].
           inversion Hin'; subst. apply Hlt in Hin. lia.
    + apply Hstep; auto. simpl. repeat split.
      * apply in_or_app. right. left. reflexivity.
      * lia.
      * intros x' s' Hin' Hle'. apply in_app_or in Hin'.
        destruct Hin' as [Hin'|[Hin'|[]]].
        -- apply Hinv in Hin'. lia.
        -- inversion Hin'; subst. lia.
Qed.

(** ** The required block size *)

Lemma block_size_required n :
  1 <= n -> required_size n <= INT_MAX -> block_size n = required_size n.
Proof.
  unfold block_size, required_size, INT_MAX. intros H1 H2.
  assert (Hn : n + 4 <= 2147483647) by modarith.
  rewrite (wrap_small (n + 4)) by (unfold INT_MAX; lia).
  rewrite Z.rem_mod_nonneg by lia.
  destruct (Z.eqb_spec ((n + 4) mod 8) 0) as [E|E]; cbn [negb].
  - modarith.
  - rewrite (wrap_small (8 - _)) by (unfold INT_MAX; modarith).
    rewrite wrap_small by (unfold INT_MAX; modarith). modarith.
Qed.

Lemma required_size_facts n :
  1 <= n -> 8 <= required_size n /\ required_size n mod 8 = 0 /\
            n + 4 <= required_size n < n + 12.
Proof. unfold required_size. intro. modarith. Qed.

Lemma store_eq' m a v x : x = a -> store m a v x = v.
Proof. intros ->. apply store_eq. Qed.

Ltac mem_simpl :=
  repeat first [rewrite store_eq | rewrite store_eq' by lia
               | rewrite store_neq by lia].

Lemma chain_total_mod m a p bl : chain m a p bl -> total bl mod 8 = 0.
Proof.
  revert a p. induction bl as [|[s al] r IH]; simpl; intros a p H; [reflexivity|].
  destruct H as (_ & Hs & _ & _ & H). apply IH in H. modarith.
Qed.

Lemma in_layout_status a l1 l2 b b' x s :
  In (x, s, true) (layout a (l1 ++ b :: l2)) ->
  fst b = fst b' ->
  x <> a + total l1 ->
  In (x, s, true) (layout a (l1 ++ b' :: l2)).
Proof.
  rewrite !layout_app. intros H E Hx. apply in_app_or in H. apply in_or_app.
  destruct H as [H|H]; auto. right. destruct b as [s1 a1], b' as [s2 a2].
  simpl in *. subst s2. destruct H as [H|H]; auto. inversion H. lia.
Qed.

Lemma layout_app3 a l1 mid l2 :
  layout a (l1 ++ mid ++ l2) =
  layout a l1 ++ layout (a + total l1) mid ++
  layout (a + total l1 + total mid) l2.
Proof. now rewrite !layout_app. Qed.

Ltac same_layout H :=
  match goal with
  | |- In _ (layout ?a _) =>
    match type of H with
    | In _ (layout ?b _) => replace a with b by (simpl; lia); exact H
    end
  end.

Section AllocWF.
Variables (st : state) (l1 l2 : list block) (s : Z).
Hypothesis Hwf : well_formed st (l1 ++ (s, false) :: l2).

Let hs := heap_start st.
Let he := heap_start st + alloc_size st.
Let x := heap_start st + total l1.
Let m := mem st.

Lemma alloc_wf_facts :
  0 <= total l1 /\ total l1 mod 8 = 0 /\ 0 <= total l2 /\
  x + s + total l2 = he /\ total l1 + s + total l2 + 3 <= INT_MAX /\
  8 <= s /\ s mod 8 = 0 /\
  chain m hs true l1 /\ m x = hdr s true false /\ m (x + s - 4) = s /\
  chain m (x + s) false l2 /\ last_status true l1 = true /\ m he = 1 /\
  4 <= hs /\ hs mod 8 = 4.
Proof.
  destruct Hwf as [[Hs0 Hs4] Hsz Htot Hch Hend _].
  apply chain_app in Hch. destruct Hch as (Hc1 & Hc2). simpl in Hc2.
  destruct Hc2 as (H8 & Hm8 & Hh & Hf & Hc3).
  destruct (Hf eq_refl) as (Hp & Hfoot).
  pose proof (chain_total_nonneg _ _ _ _ Hc1).
  pose proof (chain_total_nonneg _ _ _ _ Hc3).
  pose proof (chain_total_mod _ _ _ _ Hc1).
  rewrite total_app in Htot. simpl in Htot. rewrite Hp in Hh.
  unfold x, he, hs, m. repeat split; auto; try lia. modarith.
Qed.

Lemma exact_fit_wf :
  well_formed
    (set_mem (set_heap_end st he) (exact_fit m he x s))
    (l1 ++ (s, true) :: l2).
Proof.
  destruct alloc_wf_facts as
    (Hn1 & Hm1 & Hn2 & Hhe & Hb & H8 & Hm8 & Hc1 & Hh & Hfoot & Hc2 & Hp & Hend & Hs4 & Hsm).
  assert (Hm1x : wrap (m x + 1) = hdr s true true).
  { rewrite Hh. unfold hdr. rewrite wrap_small; unfold INT_MAX in *; lia. }
  assert (Hcase : exists m2, exact_fit m he x s = m2 /\
            (forall y, y <> x -> y <> x + s -> m2 y = m y) /\
            m2 x = hdr s true true /\ m2 he = 1 /\
            chain m2 (x + s) true l2 /\
            (a_bit (m2 (x + s)) <> 0 -> a_bit (m (x + s)) <> 0 \/ x + s = he)).
  { unfold exact_fit. rewrite Hm1x. destruct l2 as [|[s2 al2] r2] eqn:El2.
    - simpl in Hhe. replace (x + s <? he) with false
        by (symmetry; apply Z.ltb_ge; lia). simpl.
      eexists; split; [reflexivity|]. repeat split.
      + intros. now mem_simpl.
      + now mem_simpl.
      + mem_simpl. auto.
      + intros _. right. lia.
    - simpl in Hc2, Hhe, Hb. destruct Hc2 as (H82 & Hm82 & Hh2 & Hf2 & Hc3).
      pose proof (chain_total_nonneg _ _ _ _ Hc3).
      assert (al2 = true) by (destruct al2; auto; destruct Hf2; auto; discriminate).
      subst al2.
      replace (x + s <? he) with true by (symmetry; apply Z.ltb_lt; lia).
      mem_simpl. rewrite Hh2, p_bit_hdr by auto. simpl.
      replace (wrap (hdr s2 false true + 2)) with (hdr s2 true true)
        by (unfold hdr, INT_MAX in *; rewrite wrap_small; unfold INT_MAX; lia).
      eexists; split; [reflexivity|].
      split; [|split; [|split; [|split]]].
      + intros. now mem_simpl.
      + now mem_simpl.
      + now mem_simpl.
      + simpl. split; [lia|]. split; [auto|]. split; [now mem_simpl|].
        split; [intros; discriminate|].
        apply chain_frame with (m := m); auto. intros. now mem_simpl.
      + intros _. left. rewrite a_bit_hdr by auto. discriminate. }
  destruct Hcase as (m2 & -> & Hother & Hx & Hend2 & Hc2' & Hodd).
  constructor; simpl; fold hs he x m.
  - split; lia.
  - apply Hwf.
  - rewrite total_app in *. simpl in *. pose proof (wf_total _ _ Hwf) as T.
    rewrite total_app in T. simpl in T. exact T.
  - apply chain_app. split.
    + apply chain_frame with (m := m); auto. intros. apply Hother; lia.
    + rewrite Hp. simpl. repeat split; auto. discriminate.
  - exact Hend2.
  - intros y Hy Hy8 Hbit.
    destruct (Z.eq_dec y x) as [->|Hyx].
    { exists s. apply layout_in. }
    destruct (Z.eq_dec y (x + s)) as [->|Hyxs].
    { destruct (Hodd Hbit) as [Hb'|Hb']; [|lia].
      destruct (wf_stale _ _ Hwf (x + s) Hy Hy8 Hb') as (s' & Hin).
      exists s'. eapply in_layout_status; eauto. }
    rewrite Hother in Hbit by auto.
    destruct (wf_stale _ _ Hwf y Hy Hy8 Hbit) as (s' & Hin).
    exists s'. eapply in_layout_status; eauto.
Qed.

Variable size : Z.
Hypothesis Hsize : 8 <= size /\ size mod 8 = 0 /\ size < s.

Lemma split_eq :
  split_block m x size =
  store (store (store m x (hdr size true true)) (x + s - 4) (s - size))
        (x + size) (hdr (s - size) true false).
Proof.
  destruct alloc_wf_facts as
    (Hn1 & Hm1 & Hn2 & Hhe & Hb & H8 & Hm8 & Hc1 & Hh & Hfoot & Hc2 & Hp & Hend & Hs4 & Hsm).
  destruct Hsize as (Hz8 & Hzm & Hzs).
  unfold split_block. rewrite Hh, size_of_hdr, p_bit_hdr by auto.
  rewrite (wrap_small (s - size)) by (unfold INT_MAX in *; lia).
  rewrite (wrap_small (size + 2)) by (unfold INT_MAX in *; lia).
  rewrite (wrap_small (size + 2 + 1)) by (unfold INT_MAX in *; lia).
  replace (x + size + (s - size) - 4) with (x + s - 4) by lia.
  change (size + 2 + 1) with (hdr size true true).
  rewrite (store_neq _ (x + s - 4)) by lia. rewrite store_eq.
  rewrite lor_p_bit by modarith.
  rewrite p_bit_hdr by auto.
  replace (s - size + 2) with (hdr (s - size) true false) by (unfold hdr; lia).
  reflexivity.
Qed.

Lemma split_wf :
  well_formed
    (set_mem (set_heap_end st he) (split_block m x size))
    (l1 ++ (size, true) :: (s - size, false) :: l2).
Proof.
  destruct alloc_wf_facts as
    (Hn1 & Hm1 & Hn2 & Hhe & Hb & H8 & Hm8 & Hc1 & Hh & Hfoot & Hc2 & Hp & Hend & Hs4 & Hsm).
  destruct Hsize as (Hz8 & Hzm & Hzs).
  assert (Hrm : 8 <= s - size /\ (s - size) mod 8 = 0) by modarith.
  pose proof (eq_refl : x = hs + total l1) as Ex.
  rewrite split_eq.
  constructor; simpl; fold hs he x m.
  - split; lia.
  - apply Hwf.
  - pose proof (wf_total _ _ Hwf) as T. rewrite total_app in *. simpl in *. lia.
  - apply chain_app. split.
    + apply chain_frame with (m := m); auto. intros. now mem_simpl.
    + rewrite Hp. fold x. cbn [chain].
      split; [lia|]. split; [auto|]. split; [now mem_simpl|].
      split; [intros; discriminate|].
      split; [lia|]. split; [tauto|]. split; [now mem_simpl|].
      split.
      * intros _. split; auto.
        now mem_simpl.
      * replace (hs + total l1 + size + (s - size)) with (x + s) by lia.
        apply chain_frame with (m := m); auto. intros. now mem_simpl.
  - mem_simpl. auto.
  - intros y Hy Hy8 Hbit.
    change (l1 ++ (size, true) :: (s - size, false) :: l2)
      with (l1 ++ [(size, true); (s - size, false)] ++ l2).
    rewrite layout_app3. fold x.
    destruct (Z.eq_dec y x) as [->|Hyx].
    { exists size. apply in_or_app. right. left. reflexivity. }
    destruct (Z.eq_dec y (x + size)) as [->|Hyz].
    { rewrite store_eq, a_bit_hdr in Hbit by tauto. congruence. }
    destruct (Z.eq_dec y (x + s - 4)) as [->|Hyf].
    { exfalso. modarith. }
    rewrite !store_neq in Hbit by auto.
    destruct (wf_stale _ _ Hwf y Hy Hy8 Hbit) as (s' & Hin).
    exists s'.
    change (l1 ++ (s, false) :: l2) with (l1 ++ [(s, false)] ++ l2) in Hin.
    rewrite layout_app3 in Hin. fold x in Hin.
    apply in_app_or in Hin. apply in_or_app.
    destruct Hin as [Hin|Hin]; auto. right.
    apply in_app_or in Hin. apply in_or_app.
    destruct Hin as [Hin|Hin].
    + destruct Hin as [Hin|[]]. inversion Hin.
    + right. same_layout Hin.
Qed.
End AllocWF.

Lemma chain_length m a p bl : chain m a p bl -> 8 * Z.of_nat (length bl) <= total bl.
Proof.
  revert a p. induction bl as [|[s al] r IH]; intros a p H.
  - simpl. lia.
  - cbn [chain] in H. destruct H as (H8 & _ & _ & _ & H). apply IH in H.
    cbn [length total]. lia.
Qed.

(** The call [alloc fuel st n] on a well-formed heap, case by case. *)
Lemma alloc_cases fuel st bl n :
  well_formed st bl ->
  1 <= n -> required_size n <= INT_MAX ->
  (length bl < fuel)%nat ->
  let size := required_size n in
  let st' := set_heap_end st (heap_limit st) in
  (no_fit size (layout (heap_start st) bl) /\
   alloc fuel st n = Some (st', NULL)) \/
  (exists l1 l2 s,
     let x := heap_start st + total l1 in
     bl = l1 ++ (s, false) :: l2 /\
     best_fit size (layout (heap_start st) bl) x s /\
     ((s = size /\
       alloc fuel st n =
         Some (set_mem st' (exact_fit (mem st) (heap_limit st) x size), x + 4) /\
       well_formed (set_mem st' (exact_fit (mem st) (heap_limit st) x size))
                   (l1 ++ (size, true) :: l2)) \/
      (size < s /\
       alloc fuel st n =
         Some (set_mem st' (split_block (mem st) x size), x + 4) /\
       well_formed (set_mem st' (split_block (mem st) x size))
                   (l1 ++ (size, true) :: (s - size, false) :: l2)))).
Proof.
  intros Hwf Hn Hr Hfuel size st'.
  pose proof (required_size_facts n Hn) as (Hz8 & Hzm & _).
  pose proof Hwf as [[Hs0 Hs4] Hsz Htot Hch Hend Hstale].
  assert (Hloop :
    best_fit_loop fuel (mem st) (heap_limit st) size (heap_start st) NULL INT_MAX =
    Some (match scan size (heap_start st) bl None with
          | inl x => Exact (exact_fit (mem st) (heap_limit st) x size) (x + 4)
          | inr b => Best (best_ptr b)
          end)).
  { apply (best_fit_loop_scan (mem st) (heap_limit st) size bl fuel
             (heap_start st) true None); auto.
    - unfold heap_limit. lia.
    - unfold INT_MAX in *. lia. }
  pose proof (scan_spec size bl (heap_start st) None []
                (chain_pos _ _ _ _ Hch)) as Hspec.
  cbn [app] in Hspec.
  specialize (Hspec (fun _ _ _ H => match H with end)
                    (fun _ _ H => match H with end)
                    (fun _ _ H => match H with end)).
  assert (Halloc : alloc fuel st n =
    match best_fit_loop fuel (mem st) (heap_limit st) size (heap_start st) NULL INT_MAX with
    | None => None
    | Some (Exact m p) => Some (set_mem st' m, p)
    | Some (Best bestFit) =>
      if negb (bestFit =? NULL) then
        Some (set_mem st' (split_block (mem st) bestFit size), bestFit + 4)
      else Some (st', NULL)
    end).
  { unfold alloc. replace (n <? 1) with false by (symmetry; apply Z.ltb_ge; lia).
    rewrite block_size_required by auto. reflexivity. }
  rewrite Hloop in Halloc. clear Hloop.
  destruct (scan size (heap_start st) bl None) as [x|[[x s]|]].
  - right. destruct Hspec as (Hin & Hle & Hmin).
    destruct (in_layout _ _ _ _ _ Hin) as (l1 & l2 & -> & ->).
    exists l1, l2, size. cbv zeta. split; [reflexivity|]. split.
    { repeat split; auto. }
    left. split; [reflexivity|]. split; [exact Halloc|].
    apply exact_fit_wf. exact Hwf.
  - right. destruct Hspec as ((Hin & Hle & Hmin) & Hlt).
    destruct (in_layout _ _ _ _ _ Hin) as (l1 & l2 & -> & ->).
    exists l1, l2, s. cbv zeta. split; [reflexivity|]. split.
    { repeat split; auto. }
    right. split; [exact Hlt|].
    assert (Hx : heap_start st + total l1 <> NULL).
    { apply chain_app in Hch. destruct Hch as (Hc1 & _).
      pose proof (chain_total_nonneg _ _ _ _ Hc1). unfold NULL.
      Z.div_mod_to_equations. lia. }
    cbn [best_ptr] in Halloc. apply Z.eqb_neq in Hx. rewrite Hx in Halloc.
    split; [exact Halloc|].
    apply split_wf; auto.
  - left. split; [exact Hspec|exact Halloc].
Qed.

(** ** Coalescing on the block list *)

Lemma last_status_snoc p l s al : last_status p (l ++ [(s, al)]) = al.
Proof. now rewrite last_status_app. Qed.

Lemma merge_bwd_spec l1 :
  (last_status true l1 = true /\ merge_bwd l1 = (l1, 0)) \/
  (exists l0 s0, l1 = l0 ++ [(s0, false)] /\ merge_bwd l1 = (l0, s0) /\
                 last_status true l1 = false).
Proof.
  induction l1 as [|[s0 al0] r IH].
  - left. auto.
  - destruct r as [|b r'].
    + destruct al0; [left; split; reflexivity|]. right. exists [], s0.
      repeat split; reflexivity.
    + remember (b :: r') as r eqn:Er.
      assert (E : merge_bwd ((s0, al0) :: r) =
                  let '(f, z) := merge_bwd r in ((s0, al0) :: f, z)).
      { subst r. reflexivity. }
      assert (L : last_status true ((s0, al0) :: r) = last_status true r).
      { subst r. destruct b. reflexivity. }
      unfold block in *. rewrite E, L. destruct IH as [(H1 & H2)|(l0 & z & H1 & H2 & H3)].
      * left. rewrite H2. split; [assumption|reflexivity].
      * right. exists ((s0, al0) :: l0), z. rewrite H2, H3.
        subst r. rewrite H1. repeat split; reflexivity.
Qed.

Lemma merge_fwd_spec l2 :
  (exists s2 r2, l2 = (s2, false) :: r2 /\ merge_fwd l2 = (s2, r2)) \/
  (merge_fwd l2 = (0, l2) /\
   match l2 with [] => True | (_, al) :: _ => al = true end).
Proof.
  destruct l2 as [|[s2 [|]] r2]; simpl; eauto.
Qed.

Section Release.
Variables (st : state) (l1 l2 : list block) (s : Z).
Hypothesis Hwf : well_formed st (l1 ++ (s, true) :: l2).

Variables (hs he x : Z) (m : memory) (p : bool).
Hypothesis Ehs : hs = heap_start st.
Hypothesis Ehe : he = heap_start st + alloc_size st.
Hypothesis Ex : x = hs + total l1.
Hypothesis Em : m = mem st.
Hypothesis Ep : p = last_status true l1.

Variables (front rest : list block) (sb sf : Z).
Hypothesis Ebwd : merge_bwd l1 = (front, sb).
Hypothesis Efwd : merge_fwd l2 = (sf, rest).

Lemma release_facts :
  0 <= total l1 /\ total l1 mod 8 = 0 /\ 0 <= total l2 /\
  x + s + total l2 = he /\ total l1 + s + total l2 + 3 <= INT_MAX /\
  8 <= s /\ s mod 8 = 0 /\
  chain m hs true l1 /\ m x = hdr s p true /\
  chain m (x + s) true l2 /\ m he = 1 /\ 4 <= hs /\ hs mod 8 = 4.
Proof.
  destruct Hwf as [[Hs0 Hs4] Hsz Htot Hch Hend _].
  apply chain_app in Hch. destruct Hch as (Hc1 & Hc2). cbn [chain] in Hc2.
  destruct Hc2 as (H8 & Hm8 & Hh & Hf & Hc3).
  pose proof (chain_total_nonneg _ _ _ _ Hc1).
  pose proof (chain_total_nonneg _ _ _ _ Hc3).
  pose proof (chain_total_mod _ _ _ _ Hc1).
  rewrite total_app in Htot. cbn [total] in Htot.
  subst hs he x m p. repeat split; auto; try lia. modarith.
Qed.

Lemma release_fwd_facts :
  total l2 = sf + total rest /\
  chain m (x + s + sf) (sf =? 0) rest /\
  match rest with [] => True | (_, al) :: _ => al = true end /\
  ((sf = 0 /\ rest = l2) \/
   (8 <= sf /\ sf mod 8 = 0 /\ m (x + s) = hdr sf true false /\
    l2 = (sf, false) :: rest)).
Proof.
  destruct release_facts as
    (Hn1 & Hm1 & Hn2 & Hhe & Hb & H8 & Hm8 & Hc1 & Hh & Hc2 & Hend & Hs4 & Hsm).
  destruct (merge_fwd_spec l2) as [(s2 & r2 & E & E')|(E' & Hal)];
    rewrite E' in Efwd; inversion Efwd; subst sf rest; clear Efwd.
  - rewrite E in Hc2. cbn [chain] in Hc2.
    destruct Hc2 as (H82 & Hm82 & Hh2 & _ & Hc3).
    replace (s2 =? 0) with false by (symmetry; apply Z.eqb_neq; lia).
    rewrite E. cbn [total]. split; [lia|]. split; [exact Hc3|]. split.
    + destruct r2 as [|[s3 [|]] r3]; auto. cbn [chain] in Hc3.
      destruct Hc3 as (_ & _ & _ & Hf & _). destruct Hf; auto.
    + right. auto.
  - rewrite Z.add_0_r. cbn. split; [lia|]. split; [exact Hc2|]. auto.
Qed.

Lemma release_bwd_facts :
  total l1 = total front + sb /\ chain m hs true front /\
  last_status true front = true /\
  ((p = true /\ sb = 0 /\ front = l1) \/
   (p = false /\ 8 <= sb /\ sb mod 8 = 0 /\
    m (x - sb) = hdr sb true false /\ m (x - 4) = sb /\
    l1 = front ++ [(sb, false)])).
Proof.
  destruct release_facts as
    (Hn1 & Hm1 & Hn2 & Hhe & Hb & H8 & Hm8 & Hc1 & Hh & Hc2 & Hend & Hs4 & Hsm).
  destruct (merge_bwd_spec l1) as [(Hl & E)|(l0 & s0 & E & E' & Hl)].
  - rewrite E in Ebwd. inversion Ebwd; subst front sb.
    split; [lia|]. split; [exact Hc1|]. split; [exact Hl|].
    left. rewrite Ep. auto.
  - rewrite E' in Ebwd. inversion Ebwd; subst front sb. clear Ebwd.
    rewrite E in Hc1. apply chain_app in Hc1. destruct Hc1 as (Hc0 & Hcb).
    cbn [chain] in Hcb. destruct Hcb as (H80 & Hm80 & Hh0 & Hf0 & _).
    destruct (Hf0 eq_refl) as (Hp0 & Hfoot).
    rewrite E, total_app. cbn [total].
    split; [lia|]. split; [exact Hc0|]. split; [exact Hp0|].
    right. rewrite Ep, Hl. rewrite Hp0 in Hh0.
    rewrite Ex, E, total_app. cbn [total].
    replace (hs + (total l0 + (s0 + 0)) - s0) with (hs + total l0) by lia.
    replace (hs + (total l0 + (s0 + 0)) - 4) with (hs + total l0 + s0 - 4) by lia.
    repeat split; auto.
Qed.

Lemma a_bit_one : a_bit 1 = 1.
Proof. reflexivity. Qed.

Lemma size_of_one : size_of 1 = 0.
Proof. reflexivity. Qed.

(** The store after a successful [free_block], cell by cell. *)
Lemma release_mem :
  exists m5,
    free_block st (x + 4) = (set_mem (set_heap_end st he) m5, 0) /\
    m5 (x - sb) = hdr (sb + s + sf) true false /\
    m5 (x + s + sf - 4) = sb + s + sf /\
    (forall s3 al3 r3, rest = (s3, al3) :: r3 ->
       m5 (x + s + sf) = hdr s3 false true) /\
    a_bit (m5 x) = 0 /\
    (forall y, y <> x -> y <> x - sb -> y <> x + s + sf - 4 ->
       (y = x + s + sf -> rest = []) -> m5 y = m y).
Proof.
  destruct release_facts as
    (Hn1 & Hm1 & Hn2 & Hhe & Hb & H8 & Hm8 & Hc1 & Hh & Hc2 & Hend & Hs4 & Hsm).
  destruct release_fwd_facts as (Ht2 & Hcr & Hal & Hfwd).
  destruct release_bwd_facts as (Ht1 & Hcf & Hlf & Hbwd).
  pose proof (chain_total_nonneg _ _ _ _ Hcr) as Hnr.
  pose proof (chain_total_nonneg _ _ _ _ Hcf) as Hnf.
  assert (Hsf : 0 <= sf /\ sf mod 8 = 0).
  { destruct Hfwd as [(-> & _)|(? & ? & _)]; split; auto; lia. }
  assert (Hsb : 0 <= sb /\ sb mod 8 = 0).
  { destruct Hbwd as [(_ & -> & _)|(_ & ? & ? & _)]; split; auto; lia. }
  set (m1 := store m x (hdr s p false)).
  set (m2 := if sf =? 0 then m1 else store m1 x (hdr (s + sf) p false)).
  set (T := s + sf + sb).
  set (m3 := if p then m2 else store m2 (x - sb) (hdr T true false)).
  set (m4 := match rest with
             | [] => m3
             | (s3, _) :: _ => store m3 (x - sb + T) (hdr s3 false true)
             end).
  set (m5 := store m4 (x - sb + T - 4) T).
  assert (Hm2x : m2 x = hdr (s + sf) p false).
  { unfold m2, m1. destruct Hfwd as [(-> & _)|(? & _)].
    - cbn. rewrite Z.add_0_r. now mem_simpl.
    - replace (sf =? 0) with false by (symmetry; apply Z.eqb_neq; lia).
      now mem_simpl. }
  assert (Hm2o : forall y, y <> x -> m2 y = m y).
  { intros y Hy. unfold m2, m1. destruct (sf =? 0); now mem_simpl. }
  assert (Hm3X : m3 (x - sb) = hdr T true false).
  { unfold m3. destruct Hbwd as [(-> & -> & _)|(-> & _)].
    - rewrite Z.sub_0_r, Hm2x. unfold T. now rewrite Z.add_0_r.
    - now mem_simpl. }
  assert (Hm3o : forall y, y <> x - sb -> m3 y = m2 y).
  { intros y Hy. unfold m3. destruct p; now mem_simpl. }
  assert (H1 : coalesce_next m1 x s = (m2, s + sf)).
  { unfold coalesce_next, m2. destruct Hfwd as [(-> & ->)|(H8f & Hmf & Hhf & _)].
    - cbn [Z.eqb]. rewrite Z.add_0_r.
      replace (a_bit (m1 (x + s)) =? 0) with false; [reflexivity|].
      symmetry. apply Z.eqb_neq. unfold m1. mem_simpl.
      destruct l2 as [|[s2 al2] r2].
      + cbn [total] in Hhe. replace (x + s) with he by lia.
        rewrite Hend. discriminate.
      + subst al2. cbn [chain] in Hc2. destruct Hc2 as (_ & ? & -> & _).
        rewrite a_bit_hdr by auto. discriminate.
    - replace (sf =? 0) with false by (symmetry; apply Z.eqb_neq; lia).
      assert (Hm1n : m1 (x + s) = hdr sf true false)
        by (unfold m1; now mem_simpl).
      assert (Hm1x : m1 x = hdr s p false) by (unfold m1; now mem_simpl).
      cbv zeta. rewrite Hm1n, Hm1x, a_bit_hdr, size_of_hdr by auto.
      cbn [Z.eqb].
      rewrite wrap_small by (unfold INT_MAX in *; lia).
      rewrite lor_p_bit by modarith. rewrite p_bit_hdr by auto.
      replace (s + sf + (if p then 2 else 0)) with (hdr (s + sf) p false)
        by (unfold hdr; lia).
      reflexivity. }
  assert (H2 : coalesce_prev m2 x (s + sf) = (m3, x - sb, T)).
  { unfold coalesce_prev, m3. rewrite Hm2x, p_bit_hdr by modarith.
    destruct Hbwd as [(-> & -> & _)|(-> & H8b & Hmb & Hhb & Hfb & _)].
    - cbn. unfold T. now rewrite Z.sub_0_r, Z.add_0_r.
    - cbn [Z.eqb]. rewrite (Hm2o (x - 4)) by lia. rewrite Hfb.
      rewrite (Hm2o (x - sb)) by lia. rewrite Hhb.
      rewrite wrap_small by (unfold INT_MAX in *; lia).
      rewrite lor_p_bit by modarith. rewrite p_bit_hdr by auto.
      replace (s + sf + sb + 2) with (hdr T true false)
        by (unfold hdr, T; lia).
      reflexivity. }
  assert (H3 : clear_next_p_bit m3 (x - sb) T = m4).
  { unfold clear_next_p_bit, m4.
    assert (E : m3 (x - sb + T) = m (x + s + sf)).
    { rewrite Hm3o, Hm2o by (unfold T; lia). f_equal. unfold T. lia. }
    rewrite E. destruct rest as [|[s3 al3] r3].
    - cbn [total] in Ht2. replace (x + s + sf) with he by lia.
      rewrite Hend. reflexivity.
    - subst al3. cbn [chain] in Hcr. destruct Hcr as (H83 & Hm83 & Hh3 & _).
      rewrite Hh3, size_of_hdr, clear_p_hdr by auto.
      replace (s3 =? 0) with false by (symmetry; apply Z.eqb_neq; lia).
      reflexivity. }
  assert (H4 : write_footer m4 he (x - sb) T = m5).
  { unfold write_footer, m5.
    replace (x - sb + T - 4 <? he) with true; [reflexivity|].
    symmetry. apply Z.ltb_lt. unfold T. lia. }
  exists m5. split.
  { unfold free_block.
    replace (x + 4 =? NULL) with false
      by (symmetry; apply Z.eqb_neq; unfold NULL; lia).
    replace ((x + 4) mod 8 =? 0) with true
      by (symmetry; apply Z.eqb_eq; modarith).
    cbn [orb negb set_heap_end heap_start heap_end mem alloc_size].
    rewrite <- Ehe, <- Ehs, <- Em.
    replace (x + 4 <? hs) with false by (symmetry; apply Z.ltb_ge; lia).
    replace (x + 4 >=? he) with false
      by (symmetry; rewrite Z.geb_leb; apply Z.leb_gt; lia).
    cbn [orb]. replace (x + 4 - 4) with x by lia.
    rewrite Hh, a_bit_hdr, clear_a_hdr by auto.
    replace ((if true then 1 else 0) =? 0) with false by reflexivity.
    fold m1. unfold m1 at 2. rewrite store_eq, size_of_hdr by auto.
    rewrite H1, H2, H3, H4. reflexivity. }
  assert (HXT : x - sb + T = x + s + sf) by (unfold T; lia).
  split; [|split; [|split; [|split]]].
  - unfold m5. rewrite store_neq by (unfold T; lia).
    unfold m4. destruct rest as [|[s3 al3] r3].
    + rewrite Hm3X. f_equal. unfold T. lia.
    + rewrite store_neq by (unfold T; lia). rewrite Hm3X. f_equal.
      unfold T. lia.
  - unfold m5. rewrite store_eq' by lia. unfold T. lia.
  - intros s3 al3 r3 Er. unfold m5, m4. rewrite Er.
    rewrite store_neq by lia. now rewrite store_eq' by lia.
  - unfold m5. rewrite store_neq by (unfold T; modarith).
    assert (E : a_bit (m3 x) = 0).
    { destruct Hbwd as [(-> & -> & _)|(-> & H8b & _)].
      - rewrite Z.sub_0_r in Hm3X. rewrite Hm3X.
        now rewrite a_bit_hdr by (unfold T; modarith).
      - rewrite Hm3o, Hm2x by lia. now rewrite a_bit_hdr by modarith. }
    unfold m4. destruct rest as [|[s3 al3] r3]; auto.
    rewrite store_neq by lia. exact E.
  - intros y Hy1 Hy2 Hy3 Hy4. unfold m5. rewrite store_neq by lia.
    assert (E : m4 y = m3 y).
    { unfold m4. destruct rest as [|[s3 al3] r3]; auto.
      apply store_neq. intro. subst y.
      assert (Hf : (s3, al3) :: r3 = []) by (apply Hy4; lia). discriminate. }
    rewrite E, Hm3o, Hm2o by auto. reflexivity.
Qed.

(** A successful [free_block] on a well-formed heap: the new chain. *)
Lemma release_wf :
  exists m5,
    free_block st (x + 4) = (set_mem (set_heap_end st he) m5, 0) /\
    well_formed (set_mem (set_heap_end st he) m5)
                (front ++ (sb + s + sf, false) :: rest) /\
    m5 (x + s + sf - 4) = sb + s + sf /\
    a_bit (m5 x) = 0.
Proof.
  destruct release_facts as
    (Hn1 & Hm1 & Hn2 & Hhe & Hb & H8 & Hm8 & Hc1 & Hh & Hc2 & Hend & Hs4 & Hsm).
  destruct release_fwd_facts as (Ht2 & Hcr & Hal & Hfwd).
  destruct release_bwd_facts as (Ht1 & Hcf & Hlf & Hbwd).
  pose proof (chain_total_nonneg _ _ _ _ Hcr) as Hnr.
  pose proof (chain_total_nonneg _ _ _ _ Hcf) as Hnf.
  assert (Hsf : 0 <= sf /\ sf mod 8 = 0).
  { destruct Hfwd as [(-> & _)|(? & ? & _)]; split; auto; lia. }
  assert (Hsb : 0 <= sb /\ sb mod 8 = 0).
  { destruct Hbwd as [(_ & -> & _)|(_ & ? & ? & _)]; split; auto; lia. }
  destruct release_mem as (m5 & Hfree & HX & Hfoot & Hnext & Hx0 & Hother).
  exists m5. split; [exact Hfree|]. split; [|split; [exact Hfoot|exact Hx0]].
  pose proof (wf_total _ _ Hwf) as Htot.
  rewrite total_app in Htot. cbn [total] in Htot.
  assert (EX : hs + total front = x - sb) by lia.
  constructor; cbn [set_mem set_heap_end heap_start alloc_size mem heap_end];
    rewrite <- ?Ehe, <- ?Ehs.
  - split; lia.
  - apply Hwf.
  - rewrite total_app. cbn [total]. lia.
  - apply chain_app. split.
    + apply chain_frame with (m := m); auto. intros y Hy.
      apply Hother; try lia.
    + rewrite Hlf, EX. cbn [chain].
      split; [lia|]. split; [modarith|]. split; [exact HX|]. split.
      { intros _. split; auto. rewrite <- Hfoot. f_equal. lia. }
      replace (x - sb + (sb + s + sf)) with (x + s + sf) by lia.
      destruct rest as [|[s3 al3] r3]; cbn [chain]; auto.
      subst al3. cbn [chain] in Hcr.
      destruct Hcr as (H83 & Hm83 & Hh3 & _ & Hc3).
      pose proof (chain_total_nonneg _ _ _ _ Hc3).
      split; [lia|]. split; [auto|]. split; [eapply Hnext; eauto|].
      split; [intros; discriminate|].
      apply chain_frame with (m := m); auto. intros y Hy.
      apply Hother; try lia.
  - rewrite Hother, Hend; auto; try lia.
    intros E. destruct rest as [|[s3 al3] r3]; auto.
    cbn [chain] in Hcr. destruct Hcr as (? & _ & _ & _ & Hc3).
    pose proof (chain_total_nonneg _ _ _ _ Hc3).
    cbn [total] in *. lia.
  - intros y Hy Hy8 Hbit.
    rewrite layout_app. cbn [layout]. rewrite EX.
    replace (x - sb + (sb + s + sf)) with (x + s + sf) by lia.
    destruct (Z.eq_dec y (x + s + sf)) as [->|Hy1].
    { destruct rest as [|[s3 al3] r3].
      - cbn [total] in Ht2. lia.
      - subst al3. exists s3. apply in_or_app. right. right. left. reflexivity. }
    destruct (Z.eq_dec y x) as [->|Hy2]; [congruence|].
    destruct (Z.eq_dec y (x - sb)) as [->|Hy3].
    { rewrite HX, a_bit_hdr in Hbit by modarith. congruence. }
    destruct (Z.eq_dec y (x + s + sf - 4)) as [->|Hy4]; [exfalso; modarith|].
    rewrite Hother in Hbit by (auto; intros; lia).
    rewrite Em in Hbit. rewrite Ehe, Ehs in Hy.
    destruct (wf_stale _ _ Hwf y Hy Hy8 Hbit) as (s' & Hin).
    exists s'. rewrite layout_app in Hin. cbn [layout] in Hin.
    rewrite <- Ehs, <- Ex in Hin.
    apply in_app_or in Hin. apply in_or_app.
    destruct Hin as [Hin|[Hin|Hin]].
    + left. destruct Hbwd as [(_ & _ & ->)|(_ & _ & _ & _ & _ & E)]; auto.
      rewrite E, layout_app in Hin. apply in_app_or in Hin.
      destruct Hin as [Hin|[Hin|[]]]; auto. inversion Hin.
    + inversion Hin. lia.
    + right. right.
      destruct Hfwd as [(-> & ->)|(_ & _ & _ & E)].
      * now rewrite Z.add_0_r.
      * rewrite E in Hin. cbn [layout] in Hin.
        destruct Hin as [Hin|Hin]; [inversion Hin|]. exact Hin.
Qed.
End Release.

(** Whatever the size asked for, the loop only ever picks block addresses. *)
Lemma scan_picks (P : Z -> Prop) size bl : forall a best,
  match best with None => True | Some (bx, _) => P bx end ->
  (forall x s al, In (x, s, al) (layout a bl) -> P x) ->
  match scan size a bl best with
  | inl x => P x
  | inr (Some (x, _)) => P x
  | inr None => True
  end.
Proof.
  induction bl as [|[s al] r IH]; intros a best Hb Hl; cbn [scan].
  - destruct best as [[bx bs]|]; auto.
  - assert (Hr : forall x s0 al0, In (x, s0, al0) (layout (a + s) r) -> P x).
    { intros x s0 al0 Hin. apply (Hl x s0 al0). right. exact Hin. }
    assert (Ha : P a) by (apply (Hl a s al); left; reflexivity).
    destruct (s <? size); [apply IH; auto|].
    destruct al; cbn [negb]; [apply IH; auto|].
    destruct (s =? size); [exact Ha|].
    destruct best as [[bx bs]|].
    + destruct (s <? bs); apply IH; auto.
    + apply IH; auto.
Qed.

Lemma layout_addr m a p bl x s al :
  chain m a p bl -> In (x, s, al) (layout a bl) ->
  a <= x /\ x + s <= a + total bl /\ (x - a) mod 8 = 0 /\ 8 <= s.
Proof.
  intros Hc Hin. destruct (in_layout _ _ _ _ _ Hin) as (l1 & l2 & -> & ->).
  apply chain_app in Hc. destruct Hc as (Hc1 & Hc2).
  cbn [chain] in Hc2. destruct Hc2 as (H8 & _ & _ & _ & Hc3).
  pose proof (chain_total_nonneg _ _ _ _ Hc1).
  pose proof (chain_total_nonneg _ _ _ _ Hc3).
  pose proof (chain_total_mod _ _ _ _ Hc1).
  rewrite total_app. cbn [total].
  replace (a + total l1 - a) with (total l1) by lia.
  repeat split; auto; lia.
Qed.

Lemma best_fit_loop_start st bl fuel size :
  well_formed st bl ->
  (length bl < fuel)%nat ->
  best_fit_loop fuel (mem st) (heap_start st + alloc_size st) size
                (heap_start st) NULL INT_MAX =
  Some (match scan size (heap_start st) bl None with
        | inl x =>
          Exact (exact_fit (mem st) (heap_start st + alloc_size st) x size)
                (x + 4)
        | inr b => Best (best_ptr b)
        end).
Proof.
  intros [[Hs0 Hs4] Hsz Htot Hch Hend Hstale] Hfuel.
  apply (best_fit_loop_scan (mem st) (heap_start st + alloc_size st)
           size bl fuel (heap_start st) true None);
    auto; unfold INT_MAX in *; lia.
Qed.

(** [alloc] on a well-formed heap always returns; a [NULL] result leaves
    the store alone and any other result is the payload of a block. *)
Lemma alloc_returns fuel st bl n :
  well_formed st bl ->
  (length bl < fuel)%nat ->
  exists st' p,
    alloc fuel st n = Some (st', p) /\
    heap_start st' = heap_start st /\ alloc_size st' = alloc_size st /\
    (p = NULL -> mem st' = mem st) /\
    (p <> NULL -> exists s al, In (p - 4, s, al) (layout (heap_start st) bl)).
Proof.
  intros Hwf Hfuel.
  pose proof Hwf as [[Hs0 Hs4] Hsz Htot Hch Hend Hstale].
  unfold alloc. destruct (n <? 1).
  { exists st, NULL. repeat split; auto. intros []. reflexivity. }
  cbn [set_heap_end heap_start heap_end mem alloc_size].
  rewrite (best_fit_loop_start st bl) by auto.
  pose proof (scan_picks
    (fun x => exists s al, In (x, s, al) (layout (heap_start st) bl))
    (block_size n) bl (heap_start st) None I) as Hp.
  cbv beta in Hp. specialize (Hp (fun x s al H => ex_intro _ s (ex_intro _ al H))).
  assert (Hnz : forall x, (exists s al, In (x, s, al) (layout (heap_start st) bl)) ->
                          x + 4 <> NULL /\ x <> NULL).
  { intros x (s & al & Hin). pose proof (layout_addr _ _ _ _ _ _ _ Hch Hin).
    unfold NULL. modarith. }
  destruct (scan (block_size n) (heap_start st) bl None) as [x|[[x s]|]].
  - eexists _, _. split; [reflexivity|]. cbn. repeat split.
    + intro E. apply Hnz in Hp. tauto.
    + intros _. replace (x + 4 - 4) with x by lia. exact Hp.
  - cbn [best_ptr]. destruct (Hnz _ Hp) as (Hx4 & Hx).
    apply Z.eqb_neq in Hx. rewrite Hx. cbn [negb].
    eexists _, _. split; [reflexivity|]. cbn. repeat split.
    + intro E. tauto.
    + intros _. replace (x + 4 - 4) with x by lia. exact Hp.
  - cbn. eexists _, _. split; [reflexivity|]. cbn. repeat split; auto.
    intros []. reflexivity.
Qed.


(** ** [free_block]: failure and success *)

Lemma free_block_status st ptr :
  (snd (free_block st ptr) = -1 /\
   mem (fst (free_block st ptr)) = mem st /\
   heap_start (fst (free_block st ptr)) = heap_start st /\
   alloc_size (fst (free_block st ptr)) = alloc_size st /\
   (ptr = NULL \/ ptr mod 8 <> 0 \/ ptr < heap_start st \/
    heap_start st + alloc_size st <= ptr \/ a_bit (mem st (ptr - 4)) = 0)) \/
  (snd (free_block st ptr) = 0 /\
   ptr <> NULL /\ ptr mod 8 = 0 /\
   heap_start st <= ptr < heap_start st + alloc_size st /\
   a_bit (mem st (ptr - 4)) <> 0).
Proof.
  unfold free_block.
  destruct (Z.eqb_spec ptr NULL) as [E1|E1]; cbn [orb].
  { left. cbn. auto 10. }
  destruct (Z.eqb_spec (ptr mod 8) 0) as [E2|E2]; cbn [orb negb].
  2:{ left. cbn. auto 10. }
  cbn [set_heap_end heap_start heap_end mem alloc_size].
  destruct (Z.ltb_spec ptr (heap_start st)) as [E3|E3]; cbn [orb].
  { left. cbn. auto 10. }
  rewrite Z.geb_leb.
  destruct (Z.leb_spec (heap_start st + alloc_size st) ptr) as [E4|E4].
  { left. cbn. auto 10. }
  destruct (Z.eqb_spec (a_bit (mem st (ptr - 4))) 0) as [E5|E5].
  { left. cbn. auto 10. }
  right.
  destruct (coalesce_next _ _ _) as [m2 sz].
  destruct (coalesce_prev _ _ _) as [[m3 h] sz'].
  cbn. repeat split; auto; lia.
Qed.

Lemma wf_set_heap_end st bl e :
  well_formed st bl -> well_formed (set_heap_end st e) bl.
Proof. intros [H1 H2 H3 H4 H5 H6]. constructor; auto. Qed.

(** A call that passes the four checks releases an allocated block of the
    chain. *)
Lemma free_block_valid st bl ptr :
  well_formed st bl ->
  snd (free_block st ptr) = 0 ->
  exists l1 s l2,
    bl = l1 ++ (s, true) :: l2 /\ ptr = heap_start st + total l1 + 4.
Proof.
  intros Hwf Hret.
  destruct (free_block_status st ptr) as [(E & _)|(_ & Hn & H8 & Hr & Hbit)];
    [congruence|].
  pose proof Hwf as [[Hs0 Hs4] Hsz Htot Hch Hend Hstale].
  destruct (Hstale (ptr - 4)) as (s & Hin); auto; try modarith.
  destruct (in_layout _ _ _ _ _ Hin) as (l1 & l2 & -> & E).
  exists l1, s, l2. split; auto. lia.
Qed.

(** Every [free_block] call keeps the heap well formed: a rejected call
    changes nothing, an accepted one coalesces. *)
Lemma free_block_wf st bl ptr :
  well_formed st bl ->
  (snd (free_block st ptr) = -1 /\ well_formed (fst (free_block st ptr)) bl) \/
  (exists l1 s l2,
     bl = l1 ++ (s, true) :: l2 /\ ptr = heap_start st + total l1 + 4 /\
     snd (free_block st ptr) = 0 /\
     well_formed (fst (free_block st ptr)) (release_list l1 s l2)).
Proof.
  intros Hwf.
  destruct (free_block_status st ptr) as [(E & Hm & Hhs & Has & _)|(E & _)].
  - left. split; auto.
    destruct Hwf as [H1 H2 H3 H4 H5 H6].
    constructor; rewrite ?Hm, ?Hhs, ?Has; auto.
  - right. destruct (free_block_valid st bl ptr Hwf E) as (l1 & s & l2 & -> & ->).
    exists l1, s, l2. split; auto. split; auto.
    unfold release_list.
    destruct (merge_bwd l1) as [front sb] eqn:Eb.
    destruct (merge_fwd l2) as [sf rest] eqn:Ef.
    destruct (release_wf st l1 l2 s Hwf (heap_start st)
                (heap_start st + alloc_size st) (heap_start st + total l1)
                (mem st) (last_status true l1) eq_refl eq_refl eq_refl eq_refl
                eq_refl front rest sb sf Eb Ef) as (m5 & Hfree & Hwf' & _).
    rewrite Hfree. cbn [fst snd]. auto.
Qed.

(** ** [init_heap] *)

Lemma page_round_eq n ps :
  0 < ps -> 0 <= n -> n + (ps - n mod ps) mod ps = page_round n ps.
Proof.
  intros Hps Hn. unfold page_round.
  pose proof (Z.div_mod n ps ltac:(lia)) as Hdm.
  pose proof (Z.mod_pos_bound n ps Hps) as Hb.
  destruct (Z.eq_dec (n mod ps) 0) as [E|E].
  - rewrite E, Z.sub_0_r, Z.mod_same by lia.
    rewrite <- (Z.div_unique (n + ps - 1) ps (n / ps) (ps - 1)); lia.
  - rewrite (Z.mod_small (ps - n mod ps)) by lia.
    rewrite <- (Z.div_unique (n + ps - 1) ps (n / ps + 1) (n mod ps - 1)); lia.
Qed.

Lemma page_round_facts n ps :
  0 < ps -> 0 < n ->
  n <= page_round n ps < n + ps /\ ps <= page_round n ps /\
  page_round n ps mod ps = 0.
Proof.
  intros Hps Hn. rewrite <- page_round_eq by lia.
  pose proof (Z.div_mod n ps ltac:(lia)) as Hdm.
  pose proof (Z.mod_pos_bound n ps Hps) as Hb.
  pose proof (Z.mod_pos_bound (ps - n mod ps) ps Hps) as Hb'.
  assert (Hq : 0 <= n / ps) by (apply Z.div_pos; lia).
  destruct (Z.eq_dec (n mod ps) 0) as [E|E].
  - rewrite E, Z.sub_0_r, Z.mod_same, Z.add_0_r by lia.
    split; [lia|]. split; [|exact E].
    destruct (Z.eq_dec (n / ps) 0) as [E0|E0]; [rewrite E0 in Hdm; lia|nia].
  - rewrite (Z.mod_small (ps - n mod ps)) by lia.
    split; [lia|]. split; [nia|].
    replace (n + (ps - n mod ps)) with ((n / ps + 1) * ps) by lia.
    apply Z.mod_mul. lia.
Qed.

Lemma mod8_of_page x ps : 0 < ps -> ps mod 8 = 0 -> x mod ps = 0 -> x mod 8 = 0.
Proof.
  intros Hps H8 Hx.
  apply Z.mod_divide in H8; [|lia]. apply Z.mod_divide in Hx; [|lia].
  apply Z.mod_divide; [lia|]. eapply Z.divide_trans; eauto.
Qed.

Section Init.
Variables (pagesize base : Z) (st : state) (sizeOfRegion : Z).
Hypothesis Hpage : 8 < pagesize /\ pagesize mod 8 = 0.
Hypothesis Hbase : 0 <= base /\ base mod pagesize = 0.
Hypothesis Hfirst : allocated_once st = 0.
Hypothesis Hsize : 0 < sizeOfRegion.
Hypothesis Hfits : page_round sizeOfRegion pagesize <= INT_MAX.

Let R := page_round sizeOfRegion pagesize.

Lemma init_heap_eq :
  init_heap pagesize (Mapped base) st sizeOfRegion =
  (mkState (base + 4) (R - 8) (heap_end st) 1 (init_mem st base R), 0).
Proof.
  destruct (page_round_facts sizeOfRegion pagesize ltac:(lia) Hsize)
    as (Hr1 & Hr2 & Hr3).
  unfold init_heap. rewrite Hfirst. cbn [Z.eqb negb].
  replace (sizeOfRegion <=? 0) with false by (symmetry; apply Z.leb_gt; lia).
  rewrite (Z.rem_mod_nonneg sizeOfRegion pagesize) by lia.
  pose proof (Z.mod_pos_bound sizeOfRegion pagesize ltac:(lia)) as Hb.
  rewrite (wrap_small (pagesize - _)) by (unfold INT_MAX in *; lia).
  rewrite Z.rem_mod_nonneg by lia.
  rewrite page_round_eq by lia. fold R.
  rewrite (wrap_small R) by (unfold R, INT_MAX in *; lia).
  assert (R8 : R mod 8 = 0) by (apply (mod8_of_page R pagesize); lia || tauto).
  rewrite (wrap_small (R - 8)) by (unfold R, INT_MAX in *; lia).
  rewrite store_eq.
  rewrite (wrap_small (R - 8 + 2)) by (unfold R, INT_MAX in *; lia).
  replace (R - 8 + 2) with (hdr (R - 8) true false) by (unfold hdr; lia).
  reflexivity.
Qed.

Lemma init_heap_wf :
  well_formed (mkState (base + 4) (R - 8) (heap_end st) 1 (init_mem st base R))
              [(R - 8, false)].
Proof.
  destruct (page_round_facts sizeOfRegion pagesize ltac:(lia) Hsize)
    as (Hr1 & Hr2 & Hr3). fold R in Hr1, Hr2, Hr3.
  assert (R8 : R mod 8 = 0) by (apply (mod8_of_page R pagesize); lia || tauto).
  assert (B8 : base mod 8 = 0) by (apply (mod8_of_page base pagesize); lia || tauto).
  assert (R16 : 16 <= R) by modarith.
  constructor; cbn [heap_start alloc_size mem].
  - split; modarith.
  - unfold R, INT_MAX in *. lia.
  - cbn [total]. lia.
  - cbn [chain]. unfold init_mem.
    split; [lia|]. split; [modarith|]. split; [now mem_simpl|].
    split; auto. intros _. split; auto. now mem_simpl.
  - unfold init_mem. now mem_simpl.
  - intros y Hy Hy8 Hbit. exfalso. apply Hbit. unfold init_mem.
    rewrite store_neq by modarith.
    destruct (Z.eq_dec y (base + 4)) as [->|Hne].
    + rewrite store_eq. now rewrite a_bit_hdr by modarith.
    + rewrite !store_neq by lia. unfold mmap_zero.
      replace (base <=? y) with true by (symmetry; apply Z.leb_le; lia).
      replace (y <? base + R) with true by (symmetry; apply Z.ltb_lt; lia).
      reflexivity.
Qed.
End Init.

(** ** Walking the chain, as [disp_heap] does *)

Lemma walk_step m a s p al :
  8 <= s -> s mod 8 = 0 -> s + 3 <= INT_MAX -> m a = hdr s p al ->
  forall fuel,
    walk (S fuel) m a =
    match walk fuel m (a + s) with
    | Some (bl, e) => Some ((s, al) :: bl, e)
    | None => None
    end.
Proof.
  intros H8 Hm Hb Hh fuel. cbn [walk]. rewrite Hh.
  pose proof (hdr_ge s p al H8).
  replace (hdr s p al =? 1) with false by (symmetry; apply Z.eqb_neq; lia).
  cbn [negb]. fold (a_bit (hdr s p al)). rewrite a_bit_hdr by auto.
  assert (E1 : (if negb ((if al then 1 else 0) =? 0)
                then wrap (hdr s p al - 1) else hdr s p al) = hdr s p false).
  { destruct al; cbn.
    - rewrite wrap_small by (unfold hdr, INT_MAX in *; destruct p; lia).
      unfold hdr. lia.
    - reflexivity. }
  rewrite E1. fold (p_bit (hdr s p false)). rewrite p_bit_hdr by auto.
  assert (E2 : (if negb ((if p then 2 else 0) =? 0)
                then wrap (hdr s p false - 2) else hdr s p false) = s).
  { destruct p; cbn.
    - rewrite wrap_small by (unfold hdr, INT_MAX in *; lia). unfold hdr. lia.
    - unfold hdr. lia. }
  rewrite E2. destruct al; reflexivity.
Qed.

(** On a chain that ends on a header equal to [1], the walk reads back
    exactly the chain. *)
Lemma walk_chain m bl : forall fuel a p,
  chain m a p bl -> m (a + total bl) = 1 -> total bl + 3 <= INT_MAX ->
  (length bl < fuel)%nat ->
  walk fuel m a = Some (bl, a + total bl).
Proof.
  induction bl as [|[s al] r IH]; intros fuel a p Hc He Hb Hf;
    (destruct fuel as [|fuel]; [cbn in Hf; lia|]).
  - cbn [total] in *. rewrite Z.add_0_r in *. cbn [walk]. rewrite He.
    reflexivity.
  - cbn [chain total length] in *. destruct Hc as (H8 & Hm & Hh & _ & Hc).
    pose proof (chain_total_nonneg _ _ _ _ Hc).
    rewrite (walk_step m a s p al) by (auto; lia).
    rewrite (IH fuel (a + s) al); auto; try lia.
    + now rewrite Z.add_assoc.
    + now rewrite <- Z.add_assoc.
Qed.

Lemma walk_length m : forall fuel a bl e,
  walk fuel m a = Some (bl, e) -> (length bl < fuel)%nat.
Proof.
  induction fuel as [|fuel IH]; intros a bl e H; [discriminate|].
  cbn [walk] in H. destruct (negb (m a =? 1)).
  - destruct (walk fuel m _) as [[bl' e']|] eqn:E; [|discriminate].
    inversion H; subst. apply IH in E. cbn [length]. lia.
  - inversion H. cbn. lia.
Qed.

Lemma walk_mono m : forall fuel fuel' a r,
  walk fuel m a = Some r -> (fuel <= fuel')%nat -> walk fuel' m a = Some r.
Proof.
  induction fuel as [|fuel IH]; intros fuel' a r H Hle; [discriminate|].
  destruct fuel' as [|fuel']; [lia|].
  cbn [walk] in *. destruct (negb (m a =? 1)); auto.
  destruct (walk fuel m _) as [[bl' e']|] eqn:E; [|discriminate].
  rewrite (IH fuel' _ _ E) by lia. exact H.
Qed.

(** The walk of a well-formed heap. *)
Lemma walk_wf st bl fuel bl' e :
  well_formed st bl ->
  walk fuel (mem st) (heap_start st) = Some (bl', e) ->
  bl' = bl /\ e = heap_start st + alloc_size st.
Proof.
  intros [[Hs0 Hs4] Hsz Htot Hch Hend Hstale] Hw.
  pose proof (walk_chain (mem st) bl (S (length bl)) (heap_start st) true Hch)
    as Hfull.
  rewrite Htot in Hfull. specialize (Hfull Hend Hsz ltac:(lia)).
  pose proof (walk_length _ _ _ _ _ Hw) as Hl.
  destruct (Nat.le_ge_cases fuel (S (length bl))) as [Hle|Hle].
  - rewrite (walk_mono _ _ _ _ _ Hw Hle) in Hfull. inversion Hfull. auto.
  - rewrite (walk_mono _ _ _ _ _ Hfull Hle) in Hw. inversion Hw. auto.
Qed.

Lemma wf_fuel st bl fuel :
  well_formed st bl ->
  alloc_size st < 8 * Z.of_nat fuel -> (length bl < fuel)%nat.
Proof.
  intros [_ _ Htot Hch _ _] Hf. pose proof (chain_length _ _ _ _ Hch). lia.
Qed.

Lemma wf_walk st bl fuel :
  well_formed st bl ->
  (length bl < fuel)%nat ->
  walk fuel (mem st) (heap_start st) = Some (bl, heap_start st + alloc_size st).
Proof.
  intros [[Hs0 Hs4] Hsz Htot Hch Hend Hstale] Hf.
  rewrite <- Htot at 1. apply walk_chain with (p := true); auto; try lia.
  now rewrite Htot.
Qed.

(** ** Fuel *)

Lemma best_fit_loop_mono m he size : forall fuel fuel' c b bs r,
  best_fit_loop fuel m he size c b bs = Some r -> (fuel <= fuel')%nat ->
  best_fit_loop fuel' m he size c b bs = Some r.
Proof.
  induction fuel as [|fuel IH]; intros fuel' c b bs r H Hle; [discriminate|].
  destruct fuel' as [|fuel']; [lia|].
  cbn [best_fit_loop] in *.
  destruct ((c <? he) && negb (m c =? 1)); auto.
  cbv zeta in *.
  destruct (size_of (m c) <? size); [apply IH with (fuel' := fuel') in H; auto; lia|].
  destruct (a_bit (m c) =? 0); [|apply IH with (fuel' := fuel') in H; auto; lia].
  destruct (size_of (m c) =? size); auto.
  destruct ((size_of (m c) >=? size) && (size_of (m c) <? bs));
    apply IH with (fuel' := fuel') in H; auto; lia.
Qed.

Lemma alloc_mono fuel fuel' st n r :
  alloc fuel st n = Some r -> (fuel <= fuel')%nat -> alloc fuel' st n = Some r.
Proof.
  unfold alloc. intros H Hle. destruct (n <? 1); auto.
  cbv zeta in *.
  destruct (best_fit_loop fuel _ _ _ _ _ _) as [o|] eqn:E; [|discriminate].
  rewrite (best_fit_loop_mono _ _ _ _ _ _ _ _ _ E Hle). exact H.
Qed.

(** ** Reachable heaps *)

Lemma init_heap_success pagesize os st n st' :
  init_heap pagesize os st n = (st', 0) ->
  allocated_once st = 0 /\ 0 < n /\ exists base, os = Mapped base.
Proof.
  unfold init_heap.
  destruct (Z.eqb_spec (allocated_once st) 0) as [E|E]; cbn [negb];
    [|intro H; inversion H].
  destruct (Z.leb_spec n 0) as [E'|E']; [intro H; inversion H|].
  destruct os as [| |base]; intro H; try (inversion H; fail).
  eauto.
Qed.

Lemma alloc_wf fuel st bl n st' p :
  well_formed st bl -> required_size n <= INT_MAX ->
  alloc fuel st n = Some (st', p) ->
  exists bl', well_formed st' bl'.
Proof.
  intros Hwf Hr Ha.
  destruct (Z.ltb_spec n 1) as [Hn|Hn].
  { unfold alloc in Ha. replace (n <? 1) with true in Ha
      by (symmetry; apply Z.ltb_lt; lia).
    inversion Ha; subst. eauto. }
  set (F := Nat.max fuel (S (length bl))).
  assert (HF : (length bl < F)%nat) by lia.
  apply alloc_mono with (fuel' := F) in Ha; [|lia].
  destruct (alloc_cases F st bl n Hwf Hn Hr HF)
    as [(_ & E)|(l1 & l2 & s & _ & _ & [(_ & E & W)|(_ & E & W)])];
    rewrite E in Ha; inversion Ha; subst; eauto.
  exists bl. now apply wf_set_heap_end.
Qed.

Lemma reachable_wf st : reachable st -> exists bl, well_formed st bl.
Proof.
  induction 1 as [pagesize base st0 n st Hp Hp8 Hb Hbp Hr Hi
                 |fuel st n st' p _ IH Hr Ha
                 |st ptr _ IH].
  - destruct (init_heap_success _ _ _ _ _ Hi) as (Hf & Hn & _).
    rewrite (init_heap_eq pagesize base st0 n) in Hi by auto.
    inversion Hi; subst. eexists. apply init_heap_wf; auto.
  - destruct IH as (bl & Hwf). eapply alloc_wf; eauto.
  - destruct IH as (bl & Hwf).
    destruct (free_block_wf st bl ptr Hwf) as [(_ & W)|(l1 & s & l2 & _ & _ & _ & W)];
      eauto.
Qed.


(** ** Facts about the layout *)

Lemma layout_unique m a p bl x s al s' al' :
  chain m a p bl ->
  In (x, s, al) (layout a bl) -> In (x, s', al') (layout a bl) ->
  s = s' /\ al = al'.
Proof.
  revert a p. induction bl as [|[s0 al0] r IH]; intros a p Hc H1 H2; [easy|].
  cbn [chain layout] in *. destruct Hc as (H8 & _ & _ & _ & Hc).
  pose proof (chain_pos _ _ _ _ Hc) as Hpos.
  destruct H1 as [H1|H1], H2 as [H2|H2].
  - inversion H1; inversion H2; subst. auto.
  - inversion H1; subst. apply layout_ge in H2; auto. lia.
  - inversion H2; subst. apply layout_ge in H1; auto. lia.
  - eapply IH; eauto.
Qed.


Lemma chain_no_adjacent_free m bl : forall a p,
  chain m a p bl -> no_adjacent_free bl.
Proof.
  induction bl as [|[s al] r IH]; intros a p Hc; [exact I|].
  cbn [chain] in Hc. destruct Hc as (_ & _ & _ & _ & Hc).
  pose proof (IH _ _ Hc) as Hr.
  destruct r as [|[s2 al2] r2]; [destruct al; exact I|].
  destruct al, al2; try exact Hr.
  cbn [chain] in Hc. destruct Hc as (_ & _ & _ & Hf & _).
  destruct (Hf eq_refl). discriminate.
Qed.

(** Releasing the allocated block between [l1] and [l2]. *)
Lemma release_spec st l1 s l2 :
  well_formed st (l1 ++ (s, true) :: l2) ->
  let x := heap_start st + total l1 in
  let st' := fst (free_block st (x + 4)) in
  exists front sb sf rest,
    merge_bwd l1 = (front, sb) /\ merge_fwd l2 = (sf, rest) /\
    total l1 = total front + sb /\ total l2 = sf + total rest /\
    0 <= sb /\ 0 <= sf /\ 8 <= s /\ 0 <= total rest /\
    snd (free_block st (x + 4)) = 0 /\
    heap_start st' = heap_start st /\ alloc_size st' = alloc_size st /\
    heap_end st' = heap_start st + alloc_size st /\
    well_formed st' (front ++ (sb + s + sf, false) :: rest) /\
    mem st' (x + s + sf - 4) = sb + s + sf /\
    a_bit (mem st' x) = 0.
Proof.
  intros Hwf x st'.
  destruct (merge_bwd l1) as [front sb] eqn:Eb.
  destruct (merge_fwd l2) as [sf rest] eqn:Ef.
  exists front, sb, sf, rest.
  pose proof (release_facts st l1 l2 s Hwf (heap_start st)
                (heap_start st + alloc_size st) x (mem st)
                (last_status true l1) eq_refl eq_refl eq_refl eq_refl eq_refl)
    as (_ & _ & _ & _ & _ & H8 & _).
  pose proof (release_fwd_facts st l1 l2 s Hwf (heap_start st)
                (heap_start st + alloc_size st) x (mem st)
                (last_status true l1) eq_refl eq_refl eq_refl eq_refl eq_refl
                rest sf Ef) as (Ht2 & Hcr & _ & Hfwd).
  pose proof (release_bwd_facts st l1 l2 s Hwf (heap_start st)
                (heap_start st + alloc_size st) x (mem st)
                (last_status true l1) eq_refl eq_refl eq_refl eq_refl eq_refl
                front sb Eb) as (Ht1 & _ & _ & Hbwd).
  destruct (release_wf st l1 l2 s Hwf (heap_start st)
              (heap_start st + alloc_size st) x
              (mem st) (last_status true l1) eq_refl eq_refl eq_refl eq_refl
              eq_refl front rest sb sf Eb Ef) as (m5 & Hfree & Hwf' & Hfoot & Hx0).
  pose proof (chain_total_nonneg _ _ _ _ Hcr).
  unfold st'. rewrite Hfree. cbn [fst snd set_mem set_heap_end heap_start
                                   alloc_size heap_end mem].
  split_all; auto.
  - destruct Hbwd as [(_ & -> & _)|(_ & ? & _)]; lia.
  - destruct Hfwd as [(-> & _)|(? & _)]; lia.
Qed.

(** * The properties *)

(** ** The definitions at work *)

Example required_size_values :
  required_size 1 = 8 /\ required_size 4 = 8 /\ required_size 5 = 16 /\
  required_size 20 = 24 /\ block_size 20 = 24.
Proof. repeat split; reflexivity. Qed.

Example page_round_values :
  page_round 1 4096 = 4096 /\ page_round 4096 4096 = 4096 /\
  page_round 4097 4096 = 8192.
Proof. repeat split; reflexivity. Qed.

Example header_values :
  hdr 24 false true = 25 /\ hdr 24 true true = 27 /\
  hdr 24 false false = 24 /\ hdr 24 true false = 26.
Proof. repeat split; reflexivity. Qed.

Example no_adjacent_free_values :
  no_adjacent_free [(16, false); (8, true); (24, false)] /\
  ~ no_adjacent_free [(8, true); (16, false); (24, false)].
Proof. split; [exact I|exact (fun H => H)]. Qed.

(** Past [INT_MAX - 11] the block size that [alloc] computes wraps around:
    such requests are outside [in_range]. *)
Example block_size_out_of_range :
  required_size 2147483637 > INT_MAX /\ block_size 2147483637 < 0.
Proof. split; reflexivity. Qed.

(** ** The theorems *)

Lemma reachable_walk fuel st bl e :
  reachable st ->
  walk fuel (mem st) (heap_start st) = Some (bl, e) ->
  well_formed st bl /\ e = heap_start st + alloc_size st /\
  (length bl < fuel)%nat.
Proof.
  intros Hr Hw. destruct (reachable_wf st Hr) as (bl0 & Hwf).
  destruct (walk_wf st bl0 fuel bl e Hwf Hw) as (-> & ->).
  split_all; auto.
  eapply walk_length; eauto.
Qed.

Lemma wf_block_bound st bl x s al :
  well_formed st bl -> In (x, s, al) (layout (heap_start st) bl) ->
  4 <= x /\ x mod 8 = 4 /\ 8 <= s /\ s + 3 <= INT_MAX /\
  x + s <= heap_start st + alloc_size st.
Proof.
  intros [[Hs0 Hs4] Hsz Htot Hch Hend Hstale] Hin.
  pose proof (layout_addr _ _ _ _ _ _ _ Hch Hin) as (H1 & H2 & H3 & H4).
  rewrite Htot in H2. unfold INT_MAX in *.
  split_all; auto; try lia; modarith.
Qed.

Lemma wf_header_allocated st l1 s l2 :
  well_formed st (l1 ++ (s, true) :: l2) ->
  a_bit (mem st (heap_start st + total l1)) = 1.
Proof.
  intros [_ _ _ Hch _ _]. apply chain_app in Hch. destruct Hch as (_ & Hc).
  cbn [chain] in Hc. destruct Hc as (_ & Hm & -> & _).
  now rewrite a_bit_hdr.
Qed.

(** C1. Best fit: on every reachable heap, for every request of at least
    one byte, if some free block of the chain is at least as large as the
    required block size (the request plus the 4-byte header, rounded up to
    a multiple of 8), then [alloc] returns the payload of a free block of
    the smallest such size, the one at the lowest address among those of
    that size, and marks it allocated. *)
Theorem alloc_best_fit fuel st bl e n x s :
  reachable st ->
  walk fuel (mem st) (heap_start st) = Some (bl, e) ->
  1 <= n ->
  In (x, s, false) (layout (heap_start st) bl) ->
  required_size n <= s ->
  exists st' x0 s0,
    alloc fuel st n = Some (st', x0 + 4) /\
    best_fit (required_size n) (layout (heap_start st) bl) x0 s0 /\
    a_bit (mem st' x0) = 1.
Proof.
  intros Hr Hw Hn Hin Hfit.
  destruct (reachable_walk _ _ _ _ Hr Hw) as (Hwf & _ & Hfuel).
  pose proof (wf_block_bound _ _ _ _ _ Hwf Hin) as (_ & _ & _ & Hb & _).
  destruct (alloc_cases fuel st bl n Hwf Hn ltac:(lia) Hfuel)
    as [(Hno & _)|(l1 & l2 & s0 & _ & Hbest & [(_ & E & W)|(_ & E & W)])].
  - apply Hno in Hin. lia.
  - eexists _, _, _. split; [exact E|]. split; [exact Hbest|].
    apply (wf_header_allocated _ _ _ _ W).
  - eexists _, _, _. split; [exact E|]. split; [exact Hbest|].
    apply (wf_header_allocated _ _ _ _ W).
Qed.

Lemma run_some_reachable fuel cs : forall st st',
  reachable st -> Forall in_range cs -> run fuel st cs = Some st' ->
  reachable st'.
Proof.
  induction cs as [|c cs IH]; intros st st' Hr Hin Hrun; cbn [run] in Hrun.
  - inversion Hrun; subst. exact Hr.
  - inversion Hin as [|? ? Hc Hcs]; subst.
    destruct (step fuel st c) as [st1|] eqn:Es; [|discriminate].
    apply (IH st1); auto.
    destruct c as [n|ptr]; cbn [step] in Es.
    + destruct (alloc fuel st n) as [[st2 p]|] eqn:Ea; [|discriminate].
      inversion Es; subst. eapply reach_alloc; eauto.
    + inversion Es; subst. now apply reach_free.
Qed.

Lemma run_or_reachable st cs :
  reachable st -> Forall in_range cs -> reachable (run_or st cs).
Proof.
  intros Hr Hin. unfold run_or.
  destruct (run 1000 st cs) as [st'|] eqn:E; auto.
  eapply run_some_reachable; eauto.
Qed.

Lemma heap0_reachable : reachable heap0.
Proof.
  apply (reach_init 4096 65536 (boot (fun _ => 0)) 4096); try reflexivity;
    try lia.
  vm_compute. discriminate.
Qed.

Ltac in_range_list :=
  repeat constructor; vm_compute; discriminate.

Ltac in_list := vm_compute; repeat first [left; reflexivity | right].

Lemma heap_16_40_24_reachable : reachable heap_16_40_24.
Proof. apply run_or_reachable; [exact heap0_reachable|in_range_list]. Qed.

Lemma heap_16_40_reachable : reachable heap_16_40.
Proof. apply run_or_reachable; [exact heap0_reachable|in_range_list]. Qed.

Lemma alloc_best_fit_witness :
  exists st' x0 s0,
    alloc 100 heap_16_40_24 20 = Some (st', x0 + 4) /\
    best_fit (required_size 20)
      (layout (heap_start heap_16_40_24)
         [(16, false); (8, true); (40, false); (8, true); (24, false);
          (8, true); (3984, false)]) x0 s0 /\
    a_bit (mem st' x0) = 1.
Proof.
  apply (alloc_best_fit 100 heap_16_40_24 _ 69628 20 65564 40).
  - exact heap_16_40_24_reachable.
  - vm_compute. reflexivity.
  - lia.
  - in_list.
  - vm_compute. discriminate.
Defined.

(** The scenario of the specification: with free blocks of 16, 40 and 24
    bytes, a request that needs 24 bytes gets the 24-byte block, whole. *)
Example best_fit_takes_the_24 :
  option_map (fun r => (snd r, walk 100 (mem (fst r)) 65540))
             (alloc 100 heap_16_40_24 20) =
  Some (65616,
        Some ([(16, false); (8, true); (40, false); (8, true); (24, true);
               (8, true); (3984, false)], 69628)).
Proof. vm_compute. reflexivity. Qed.

(** With the 24-byte block taken, the same request splits the 40-byte
    block into 24 and 16. *)
Example best_fit_splits_the_40 :
  option_map (fun r => (snd r, walk 100 (mem (fst r)) 65540))
             (alloc 100 heap_16_40 20) =
  Some (65568,
        Some ([(16, false); (8, true); (24, true); (16, false); (8, true);
               (24, true); (8, true); (3984, false)], 69628)).
Proof. vm_compute. reflexivity. Qed.

(** C2. Splitting: when [alloc] returns the payload of a free block of the
    chain whose size [s] exceeds the required size [r], the header of that
    block then records size [r], allocated, with the predecessor bit it had
    before; the word [r] bytes further is the header of a free block of
    size [s - r] whose predecessor bit is set; the last word of the
    original block holds [s - r]; and the chain reads accordingly. *)
Theorem alloc_split fuel st bl e n st' p s :
  reachable st ->
  walk fuel (mem st) (heap_start st) = Some (bl, e) ->
  alloc fuel st n = Some (st', p) ->
  In (p - 4, s, false) (layout (heap_start st) bl) ->
  required_size n < s ->
  let r := required_size n in
  let a := p - 4 in
  size_of (mem st' a) = r /\ a_bit (mem st' a) = 1 /\
  p_bit (mem st' a) = p_bit (mem st a) /\
  size_of (mem st' (a + r)) = s - r /\ a_bit (mem st' (a + r)) = 0 /\
  p_bit (mem st' (a + r)) = 2 /\
  mem st' (a + s - 4) = s - r /\
  exists l1 l2,
    bl = l1 ++ (s, false) :: l2 /\ a = heap_start st + total l1 /\
    walk (S fuel) (mem st') (heap_start st') =
      Some (l1 ++ (r, true) :: (s - r, false) :: l2, e).
Proof.
  intros Hr Hw Ha Hin Hlt r a.
  destruct (reachable_walk _ _ _ _ Hr Hw) as (Hwf & He & Hfuel).
  pose proof (wf_block_bound _ _ _ _ _ Hwf Hin) as (Hp4 & _ & _ & Hb & _).
  assert (Hn : 1 <= n).
  { destruct (Z.ltb_spec n 1) as [Hn|Hn]; auto.
    unfold alloc in Ha. replace (n <? 1) with true in Ha
      by (symmetry; apply Z.ltb_lt; lia).
    inversion Ha; subst. unfold NULL in *. lia. }
  pose proof (required_size_facts n Hn) as (Hr8 & Hrm & _).
  pose proof Hwf as [_ _ _ Hch _ _].
  destruct (alloc_cases fuel st bl n Hwf Hn ltac:(lia) Hfuel)
    as [(Hno & _)|(l1 & l2 & s0 & Hbl & Hbest & Hcase)].
  { apply Hno in Hin. fold r in Hin. lia. }
  cbv zeta in Hbl, Hbest, Hcase.
  assert (Hsame : heap_start st + total l1 = a /\ s0 = s).
  { destruct Hcase as [(_ & E & _)|(_ & E & _)]; rewrite E in Ha;
      inversion Ha; subst p; destruct Hbest as (Hin0 & _);
      replace (heap_start st + total l1 + 4 - 4)
        with (heap_start st + total l1) in * by lia;
      destruct (layout_unique _ _ _ _ _ _ _ _ _ Hch Hin0 Hin) as (-> & _);
      unfold a; split; auto; lia. }
  destruct Hsame as (Ea & ->).
  destruct Hcase as [(E & _)|(_ & E & W)]; [fold r in E; lia|].
  rewrite E in Ha. inversion Ha; subst st'. clear Ha.
  rewrite Hbl in Hwf.
  assert (Hsz : 8 <= required_size n /\ required_size n mod 8 = 0 /\
                required_size n < s) by auto.
  rewrite (split_eq st l1 l2 s Hwf (required_size n) Hsz).
  rewrite (split_eq st l1 l2 s Hwf (required_size n) Hsz) in W.
  fold r in W |- *. rewrite Ea in *.
  cbn [mem set_mem set_heap_end heap_start].
  pose proof (alloc_wf_facts st l1 l2 s Hwf)
    as (_ & _ & _ & _ & _ & H8 & Hm8 & _ & Hh & _).
  rewrite Ea in Hh.
  assert (Hrm' : 8 <= s - r /\ (s - r) mod 8 = 0) by (unfold r in *; modarith).
  mem_simpl. rewrite Hh.
  rewrite !size_of_hdr, !a_bit_hdr, !p_bit_hdr by tauto.
  split_all; auto.
  exists l1, l2. split; [exact Hbl|]. split; [auto|].
  rewrite He.
  apply (wf_walk _ _ (S fuel) W). rewrite Hbl in Hfuel.
  rewrite !length_app in *. cbn [length] in *. lia.
Qed.

Lemma alloc_split_witness :
  let st' := state_after_alloc 100 heap_16_40 20 in
  size_of (mem st' 65564) = 24 /\ a_bit (mem st' 65564) = 1 /\
  p_bit (mem st' 65564) = p_bit (mem heap_16_40 65564) /\
  size_of (mem st' 65588) = 16 /\ a_bit (mem st' 65588) = 0 /\
  p_bit (mem st' 65588) = 2 /\
  mem st' 65600 = 16.
Proof.
  pose proof (alloc_split 100 heap_16_40
    [(16, false); (8, true); (40, false); (8, true); (24, true);
     (8, true); (3984, false)] 69628 20
    (state_after_alloc 100 heap_16_40 20) 65568 40) as H.
  cbv zeta. cbv zeta in H.
  assert (H1 : reachable heap_16_40) by exact heap_16_40_reachable.
  assert (H2 : walk 100 (mem heap_16_40) (heap_start heap_16_40) =
               Some ([(16, false); (8, true); (40, false); (8, true);
                      (24, true); (8, true); (3984, false)], 69628))
    by (vm_compute; reflexivity).
  assert (H3 : alloc 100 heap_16_40 20 =
               Some (state_after_alloc 100 heap_16_40 20, 65568))
    by reflexivity.
  assert (H4 : In (65568 - 4, 40, false)
                  (layout (heap_start heap_16_40)
                     [(16, false); (8, true); (40, false); (8, true);
                      (24, true); (8, true); (3984, false)]))
    by in_list.
  assert (H5 : required_size 20 < 40) by (vm_compute; reflexivity).
  destruct (H H1 H2 H3 H4 H5) as (A & B & C & D & E & F & G & _).
  split_all; assumption.
Defined.

(** C3 (as amended). Every successful [free_block] writes the footer: the
    block that results from the coalescing is a free block of the chain
    that contains the released header, its last word lies below
    [heap_end], so the guard of the footer write holds, and that word
    holds the merged size.  This includes a merged block that ends exactly
    on the end mark. *)
Theorem release_writes_footer fuel st ptr bl' e :
  reachable st ->
  snd (free_block st ptr) = 0 ->
  walk fuel (mem (fst (free_block st ptr)))
       (heap_start (fst (free_block st ptr))) = Some (bl', e) ->
  let st' := fst (free_block st ptr) in
  exists a s,
    In (a, s, false) (layout (heap_start st') bl') /\
    a <= ptr - 4 < a + s /\
    a + s - 4 < heap_end st' /\
    mem st' (a + s - 4) = s.
Proof.
  intros Hr Hret Hw st'.
  destruct (reachable_wf st Hr) as (bl & Hwf).
  destruct (free_block_valid st bl ptr Hwf Hret) as (l1 & s & l2 & -> & ->).
  destruct (release_spec st l1 s l2 Hwf)
    as (front & sb & sf & rest & _ & _ & Ht1 & Ht2 & Hsb & Hsf & H8 & Hnr &
        _ & Hhs & Has & Hhe & Hwf' & Hfoot & _).
  fold st' in Hhs, Has, Hhe, Hwf', Hfoot, Hw.
  destruct (walk_wf st' _ fuel bl' e Hwf' Hw) as (-> & _).
  pose proof (wf_total _ _ Hwf) as Htot.
  rewrite total_app in Htot. cbn [total] in Htot.
  exists (heap_start st' + total front), (sb + s + sf).
  split; [apply layout_in|]. rewrite Hhs, Hhe.
  replace (heap_start st + total front + (sb + s + sf) - 4)
    with (heap_start st + total l1 + s + sf - 4) by lia.
  split_all; auto; lia.
Qed.

Lemma heap_one_block_reachable : reachable heap_one_block.
Proof.
  apply (reach_alloc 100 heap0 8 heap_one_block 65544).
  - exact heap0_reachable.
  - vm_compute. discriminate.
  - reflexivity.
Qed.

Lemma release_writes_footer_witness :
  let st' := fst (free_block heap_one_block 65544) in
  exists a s,
    In (a, s, false) (layout (heap_start st') [(4088, false)]) /\
    a <= 65544 - 4 < a + s /\
    a + s - 4 < heap_end st' /\
    mem st' (a + s - 4) = s.
Proof.
  apply (release_writes_footer 100 heap_one_block 65544 [(4088, false)] 69628).
  - exact heap_one_block_reachable.
  - vm_compute. reflexivity.
  - vm_compute. reflexivity.
Defined.

(** C3, as stated, fails: releasing the only allocated block of
    [heap_one_block] merges it with the free block that ends on the end
    mark at [69628]; the merged block ends exactly there, and yet the guard
    of the footer write holds and the last word of the block, [4072] before
    the call, is overwritten with the merged size. *)
Lemma release_footer_at_end_mark_not_skipped :
  let st' := fst (free_block heap_one_block 65544) in
  snd (free_block heap_one_block 65544) = 0 /\
  walk 100 (mem st') (heap_start st') = Some ([(4088, false)], 69628) /\
  heap_start st' + 4088 = heap_start st' + alloc_size st' /\
  mem st' (heap_start st' + alloc_size st') = 1 /\
  (heap_start st' + 4088 - 4 <? heap_end st') = true /\
  mem heap_one_block (heap_start st' + 4088 - 4) = 4072 /\
  mem st' (heap_start st' + 4088 - 4) = 4088.
Proof. vm_compute. repeat split; reflexivity. Qed.









(** C6. Coalescing: after a successful [free_block] on a reachable heap the
    chain can be walked to the end mark, and no two neighbouring blocks of
    it are both free. *)
Theorem release_no_adjacent_free fuel st ptr :
  reachable st ->
  snd (free_block st ptr) = 0 ->
  alloc_size st < 8 * Z.of_nat fuel ->
  let st' := fst (free_block st ptr) in
  exists bl',
    walk fuel (mem st') (heap_start st') =
      Some (bl', heap_start st' + alloc_size st') /\
    no_adjacent_free bl'.
Proof.
  intros Hr Hret Hfuel st'.
  assert (Hr' : reachable st') by (apply reach_free; exact Hr).
  destruct (reachable_wf st Hr) as (bl & Hwf).
  destruct (free_block_wf st bl ptr Hwf)
    as [(E & _)|(l1 & s & l2 & _ & _ & _ & Hwf')]; [congruence|].
  fold st' in Hwf'.
  assert (Has : alloc_size st' = alloc_size st).
  { destruct (free_block_status st ptr) as [(E & _)|_]; [congruence|].
    unfold st', free_block.
    destruct ((ptr =? NULL) || negb (ptr mod 8 =? 0)); auto.
    cbv zeta. destruct ((ptr <? _) || (ptr >=? _)); auto.
    destruct (a_bit _ =? 0); auto.
    destruct (coalesce_next _ _ _) as [m2 sz].
    destruct (coalesce_prev _ _ _) as [[m3 h] sz']. reflexivity. }
  exists (release_list l1 s l2). split.
  - apply wf_walk; auto. apply (wf_fuel st' _ fuel Hwf'). lia.
  - eapply chain_no_adjacent_free. apply Hwf'.
Qed.

Lemma release_no_adjacent_free_witness :
  let st' := fst (free_block heap_16_40_24 65560) in
  exists bl',
    walk 600 (mem st') (heap_start st') =
      Some (bl', heap_start st' + alloc_size st') /\
    no_adjacent_free bl'.
Proof.
  apply (release_no_adjacent_free 600 heap_16_40_24 65560).
  - exact heap_16_40_24_reachable.
  - vm_compute. reflexivity.
  - vm_compute. reflexivity.
Defined.

(** Releasing the 8-byte block between the free blocks of 16 and 40 bytes
    merges the three into one block of 64 bytes. *)
Example release_merges_both_sides :
  walk 100 (mem (fst (free_block heap_16_40_24 65560))) 65540 =
  Some ([(64, false); (8, true); (24, false); (8, true); (3984, false)],
        69628).
Proof. vm_compute. reflexivity. Qed.


(** The coalescing scenario of the specification: three blocks allocated
    back to back, the second released, then the first (they merge and the
    third learns that its predecessor is free), then the third (the arena
    is one free block again). *)
Example release_in_turn :
  let w cs := let st := run_or heap0 cs in walk 100 (mem st) (heap_start st) in
  w [Alloc 8; Alloc 8; Alloc 8] =
    Some ([(16, true); (16, true); (16, true); (4040, false)], 69628) /\
  w [Alloc 8; Alloc 8; Alloc 8; Free 65560] =
    Some ([(16, true); (16, false); (16, true); (4040, false)], 69628) /\
  w [Alloc 8; Alloc 8; Alloc 8; Free 65560; Free 65544] =
    Some ([(32, false); (16, true); (4040, false)], 69628) /\
  p_bit (mem (run_or heap0 [Alloc 8; Alloc 8; Alloc 8; Free 65560; Free 65544])
             65572) = 0 /\
  w [Alloc 8; Alloc 8; Alloc 8; Free 65560; Free 65544; Free 65576] =
    Some ([(4088, false)], 69628).
Proof. vm_compute. repeat split; reflexivity. Qed.

(** Releasing the same pointer twice: the second call returns [-1] and the
    chain is as the first call left it. *)
Example release_twice :
  let st := run_or heap0 [Alloc 8; Alloc 8; Alloc 8; Free 65560] in
  snd (free_block st 65560) = -1 /\
  walk 100 (mem (fst (free_block st 65560))) 65540 =
    walk 100 (mem st) 65540.
Proof. vm_compute. split; reflexivity. Qed.






(** C8. Initialisation: when [init_heap] succeeds on a mapping at a
    page-aligned [base], the heap starts at [base + 4] and holds exactly
    one block, free, of the page-rounded size minus 8; its header has the
    a-bit clear and the p-bit set, its last word holds its size, and the
    word right after it, the last of the mapping, is the end mark [1]. *)
Theorem init_heap_layout pagesize base st0 n st :
  8 < pagesize -> pagesize mod 8 = 0 ->
  0 <= base -> base mod pagesize = 0 ->
  page_round n pagesize <= INT_MAX ->
  init_heap pagesize (Mapped base) st0 n = (st, 0) ->
  let size := page_round n pagesize - 8 in
  let hs := heap_start st in
  hs = base + 4 /\ alloc_size st = size /\
  walk 2 (mem st) hs = Some ([(size, false)], hs + size) /\
  size_of (mem st hs) = size /\ a_bit (mem st hs) = 0 /\
  p_bit (mem st hs) = 2 /\
  mem st (hs + size - 4) = size /\
  mem st (hs + size) = 1 /\
  hs + size + 4 = base + page_round n pagesize.
Proof.
  intros Hp Hp8 Hb Hbp Hfit Hinit size hs.
  destruct (init_heap_success _ _ _ _ _ Hinit) as (Hf & Hn & _).
  pose proof (init_heap_wf pagesize base st0 n (conj Hp Hp8) (conj Hb Hbp)
                Hn Hfit) as Hwf.
  rewrite (init_heap_eq pagesize base st0 n) in Hinit by auto.
  inversion Hinit; subst st. clear Hinit.
  pose proof (wf_walk _ _ 2%nat Hwf ltac:(cbn; lia)) as Hw.
  pose proof Hwf as [_ _ _ Hch Hend _].
  cbn [heap_start alloc_size mem chain] in *.
  destruct Hch as (H8 & Hm8 & Hh & Hfoot & _).
  destruct (Hfoot eq_refl) as (_ & Hfoot').
  unfold hs, size. cbn [heap_start alloc_size mem].
  rewrite Hh, size_of_hdr, a_bit_hdr, p_bit_hdr by auto.
  split_all; auto. lia.
Qed.

Lemma init_heap_layout_witness :
  let size := page_round 5000 4096 - 8 in
  let st := fst (init_heap 4096 (Mapped 65536) (boot (fun _ => 0)) 5000) in
  let hs := heap_start st in
  hs = 65536 + 4 /\ alloc_size st = size /\
  walk 2 (mem st) hs = Some ([(size, false)], hs + size) /\
  size_of (mem st hs) = size /\ a_bit (mem st hs) = 0 /\
  p_bit (mem st hs) = 2 /\
  mem st (hs + size - 4) = size /\
  mem st (hs + size) = 1 /\
  hs + size + 4 = 65536 + page_round 5000 4096.
Proof.
  apply (init_heap_layout 4096 65536 (boot (fun _ => 0)) 5000).
  - lia.
  - reflexivity.
  - lia.
  - reflexivity.
  - vm_compute. discriminate.
  - reflexivity.
Defined.

(** C9. Alignment: on every reachable heap, a pointer other than [NULL]
    returned by [alloc] is a multiple of 8. *)
Theorem alloc_payload_aligned fuel st n st' p :
  reachable st ->
  alloc fuel st n = Some (st', p) ->
  p <> NULL ->
  p mod 8 = 0.
Proof.
  intros Hr Ha Hp. destruct (reachable_wf st Hr) as (bl & Hwf).
  set (F := Nat.max fuel (S (length bl))).
  apply alloc_mono with (fuel' := F) in Ha; [|lia].
  destruct (alloc_returns F st bl n Hwf ltac:(lia))
    as (st1 & p1 & Ha' & _ & _ & _ & Hblk).
  rewrite Ha' in Ha. inversion Ha; subst st1 p1.
  destruct (Hblk Hp) as (s & al & Hin).
  pose proof (wf_block_bound _ _ _ _ _ Hwf Hin) as (_ & Hm & _).
  modarith.
Qed.

Lemma alloc_payload_aligned_witness : 65568 mod 8 = 0.
Proof.
  apply (alloc_payload_aligned 100 heap_16_40 20
           (state_after_alloc 100 heap_16_40 20) 65568).
  - exact heap_16_40_reachable.
  - reflexivity.
  - discriminate.
Defined.

Lemma reachable_start : forall st,
  reachable st -> heap_start st mod 8 = 4 /\ 4 <= heap_start st.
Proof.
  intros st Hr. destruct (reachable_wf st Hr) as (bl & [[H0 H4] _ _ _ _ _]).
  split; auto. modarith.
Qed.

(** C10 (as amended). [free_block] called with [heap_start] itself returns
    [-1] and leaves the state as it was, because [heap_start], four bytes
    past the page-aligned mapping, is congruent to 4 modulo 8 and fails the
    alignment check; the result does not depend on any word of the store,
    the padding word before [heap_start] included. *)
Theorem release_heap_start_rejected st :
  reachable st ->
  heap_start st mod 8 = 4 /\
  free_block st (heap_start st) = (st, -1) /\
  forall m, free_block (set_mem st m) (heap_start st) = (set_mem st m, -1).
Proof.
  intros Hr. destruct (reachable_start st Hr) as (H4 & Hge).
  assert (E : forall st1, heap_start st1 = heap_start st ->
                          free_block st1 (heap_start st) = (st1, -1)).
  { intros st1 _. unfold free_block.
    replace (heap_start st mod 8 =? 0) with false
      by (symmetry; apply Z.eqb_neq; lia).
    cbn [negb]. now rewrite orb_true_r. }
  split; [exact H4|]. split; [now apply E|]. intro m. now apply E.
Qed.

Lemma release_heap_start_rejected_witness :
  heap_start heap_one_block mod 8 = 4 /\
  free_block heap_one_block (heap_start heap_one_block) =
    (heap_one_block, -1) /\
  forall m, free_block (set_mem heap_one_block m) (heap_start heap_one_block) =
            (set_mem heap_one_block m, -1).
Proof.
  apply (release_heap_start_rejected heap_one_block).
  exact heap_one_block_reachable.
Defined.

(** C10, as stated, fails: on the fresh heap [heap_start] is [65540], not
    a multiple of 8, and the call is rejected even when the padding word
    before it has its a-bit set, so the a-bit check is not what rejects
    it. *)
Lemma release_heap_start_not_aligned :
  heap_start heap0 mod 8 <> 0 /\
  a_bit (store (mem heap0) (heap_start heap0 - 4) 1 (heap_start heap0 - 4)) = 1 /\
  free_block (set_mem heap0 (store (mem heap0) (heap_start heap0 - 4) 1))
             (heap_start heap0) =
  (set_mem heap0 (store (mem heap0) (heap_start heap0 - 4) 1), -1).
Proof.
  split; [vm_compute; discriminate|]. split; reflexivity.
Qed.

(** * Further properties of the code *)

(** ** The three fields of a header word *)

(** X1. The masks [~0x3], [0x2] and [0x1] that [alloc], [free_block] and
    [disp_heap] apply to a header word cut it into three fields that do
    not overlap and lose nothing: every word is the sum of its size field,
    its p-bit and its a-bit, the a-bit is 0 or 1, the p-bit is 0 or 2, and
    the size field is a multiple of 4. *)
Theorem header_fields_partition (h : Z) :
  size_of h + p_bit h + a_bit h = h /\
  (a_bit h = 0 \/ a_bit h = 1) /\
  (p_bit h = 0 \/ p_bit h = 2) /\
  size_of h mod 4 = 0.
Proof.
  rewrite size_of_mod, p_bit_mod, a_bit_mod. split_all; modarith.
Qed.

(** X2. The header words the code writes decode to what was encoded: the
    word [size + (h & 2) + 1] that [alloc] gives to the allocated part of
    a split block (line 180) has size field [size], the p-bit of [h] and
    the a-bit set; the word [size | (h & 2)] that the split (line 188) and
    the coalescing (lines 243, 259) give to a free block has size field
    [size], the p-bit of [h] and the a-bit clear. *)
Theorem header_write_decodes (size h : Z) :
  0 <= size -> size + 3 <= INT_MAX -> size mod 4 = 0 ->
  let used := wrap (wrap (size + p_bit h) + 1) in
  let free := Z.lor size (p_bit h) in
  size_of used = size /\ p_bit used = p_bit h /\ a_bit used = 1 /\
  size_of free = size /\ p_bit free = p_bit h /\ a_bit free = 0.
Proof.
  intros H0 Hmax H4 used free. unfold used, free.
  assert (Hp : p_bit h = 0 \/ p_bit h = 2) by (rewrite p_bit_mod; modarith).
  rewrite lor_p_bit by assumption.
  rewrite !wrap_small by (unfold INT_MAX in *; rewrite ?wrap_small; unfold INT_MAX; lia).
  rewrite !size_of_mod, !a_bit_mod.
  rewrite (p_bit_mod (size + p_bit h + 1)), (p_bit_mod (size + p_bit h)).
  split_all; modarith.
Qed.

Lemma header_write_decodes_witness :
  size_of (wrap (wrap (24 + p_bit 43) + 1)) = 24 /\
  p_bit (wrap (wrap (24 + p_bit 43) + 1)) = p_bit 43 /\
  a_bit (wrap (wrap (24 + p_bit 43) + 1)) = 1 /\
  size_of (Z.lor 24 (p_bit 43)) = 24 /\
  p_bit (Z.lor 24 (p_bit 43)) = p_bit 43 /\
  a_bit (Z.lor 24 (p_bit 43)) = 0.
Proof.
  apply (header_write_decodes 24 43); [lia | unfold INT_MAX; lia | reflexivity].
Defined.

(** X3. The updates that the code makes to a header word in place touch
    one bit only: [+ 1] on a word whose a-bit is clear (line 149) sets the
    a-bit, [+ 2] on a word whose p-bit is clear (line 153) sets the p-bit,
    [& ~0x1] (line 230) clears the a-bit and [& ~0x2] (line 268) clears
    the p-bit; in each case the size field and the other bit are as
    before. *)
Theorem header_bit_updates (h : Z) :
  (a_bit h = 0 ->
   size_of (h + 1) = size_of h /\ p_bit (h + 1) = p_bit h /\
   a_bit (h + 1) = 1) /\
  (p_bit h = 0 ->
   size_of (h + 2) = size_of h /\ p_bit (h + 2) = 2 /\
   a_bit (h + 2) = a_bit h) /\
  (size_of (Z.land h (Z.lnot 1)) = size_of h /\
   p_bit (Z.land h (Z.lnot 1)) = p_bit h /\
   a_bit (Z.land h (Z.lnot 1)) = 0) /\
  (size_of (Z.land h (Z.lnot 2)) = size_of h /\
   p_bit (Z.land h (Z.lnot 2)) = 0 /\
   a_bit (Z.land h (Z.lnot 2)) = a_bit h).
Proof.
  rewrite clear_a_mod, clear_p_mod.
  rewrite !size_of_mod, !a_bit_mod.
  rewrite (p_bit_mod h), (p_bit_mod (h + 1)), (p_bit_mod (h + 2)),
    (p_bit_mod (h - h mod 2)), (p_bit_mod (h - (h mod 4 - h mod 2))).
  split_all; try intro; split_all; modarith.
Qed.

Lemma header_bit_updates_witness :
  (a_bit 26 = 0 ->
   size_of (26 + 1) = size_of 26 /\ p_bit (26 + 1) = p_bit 26 /\
   a_bit (26 + 1) = 1) /\
  (p_bit 25 = 0 ->
   size_of (25 + 2) = size_of 25 /\ p_bit (25 + 2) = 2 /\
   a_bit (25 + 2) = a_bit 25) /\
  size_of (Z.land 27 (Z.lnot 1)) = 24 /\
  p_bit (Z.land 27 (Z.lnot 2)) = 0.
Proof.
  destruct (header_bit_updates 26) as (H1 & _).
  destruct (header_bit_updates 25) as (_ & H2 & _).
  destruct (header_bit_updates 27) as (_ & _ & (H3 & _) & (_ & H4 & _)).
  split_all; [exact H1 | exact H2 | exact H3 | exact H4].
Defined.

(** ** The globals *)

Lemma alloc_globals fuel st n st' p :
  alloc fuel st n = Some (st', p) ->
  heap_start st' = heap_start st /\ alloc_size st' = alloc_size st /\
  allocated_once st' = allocated_once st.
Proof.
  unfold alloc. destruct (n <? 1).
  - intro H. inversion H. auto.
  - cbv zeta. destruct (best_fit_loop _ _ _ _ _ _ _) as [[m q|b]|];
      [| |discriminate].
    + intro H. inversion H. cbn. auto.
    + destruct (negb (b =? NULL)); intro H; inversion H; cbn; auto.
Qed.

Lemma free_block_globals st ptr :
  heap_start (fst (free_block st ptr)) = heap_start st /\
  alloc_size (fst (free_block st ptr)) = alloc_size st /\
  allocated_once (fst (free_block st ptr)) = allocated_once st.
Proof.
  unfold free_block.
  destruct ((ptr =? NULL) || negb (ptr mod 8 =? 0)); auto.
  cbv zeta.
  destruct ((ptr <? _) || (ptr >=? _)); auto.
  destruct (a_bit _ =? 0); auto.
  destruct (coalesce_next _ _ _) as [m2 sz].
  destruct (coalesce_prev _ _ _) as [[m3 h] sz']. cbn. auto.
Qed.

Lemma run_globals fuel cs : forall st st',
  run fuel st cs = Some st' ->
  heap_start st' = heap_start st /\ alloc_size st' = alloc_size st /\
  allocated_once st' = allocated_once st.
Proof.
  induction cs as [|c cs IH]; intros st st' H; cbn [run] in H.
  - inversion H. auto.
  - destruct (step fuel st c) as [st1|] eqn:E; [|discriminate].
    apply IH in H. destruct H as (H1 & H2 & H3).
    destruct c as [n|ptr]; cbn [step] in E.
    + destruct (alloc fuel st n) as [[st2 p]|] eqn:Ea; [|discriminate].
      inversion E; subst. apply alloc_globals in Ea.
      destruct Ea as (? & ? & ?). split_all; congruence.
    + inversion E; subst.
      destruct (free_block_globals st ptr) as (? & ? & ?).
      split_all; congruence.
Qed.

Lemma reachable_size st : reachable st -> 8 <= alloc_size st.
Proof.
  induction 1 as [pagesize base st0 n st Hp Hp8 Hb Hbp Hr Hi
                 |fuel st n st' p _ IH Hr Ha
                 |st ptr _ IH].
  - destruct (init_heap_success _ _ _ _ _ Hi) as (Hf & Hn & _).
    rewrite (init_heap_eq pagesize base st0 n) in Hi by auto.
    inversion Hi; subst. cbn.
    assert (16 <= pagesize) by modarith.
    assert (pagesize <= page_round n pagesize); [|lia].
    unfold page_round.
    assert (1 <= (n + pagesize - 1) / pagesize)
      by (apply Z.div_le_lower_bound; lia).
    nia.
  - apply alloc_globals in Ha. destruct Ha as (_ & -> & _). exact IH.
  - destruct (free_block_globals st ptr) as (_ & -> & _). exact IH.
Qed.

(** ** [init_heap]: failures and the one-shot guard *)

Lemma init_heap_flag pagesize os st n st' :
  init_heap pagesize os st n = (st', 0) -> allocated_once st' = 1.
Proof.
  unfold init_heap.
  destruct (negb (allocated_once st =? 0)); [intro H; inversion H|].
  destruct (n <=? 0); [intro H; inversion H|].
  cbv zeta. destruct os; intro H; inversion H. reflexivity.
Qed.

(** X4. [init_heap] works once: after a call that succeeded, and after any
    calls of [alloc] and [free_block] since, every further call, whatever
    its argument and whatever the system would answer, returns [-1] and
    leaves the globals and the store as they are. *)
Theorem init_heap_only_once pagesize os st0 n st fuel cs st'
    pagesize' os' n' :
  init_heap pagesize os st0 n = (st, 0) ->
  run fuel st cs = Some st' ->
  init_heap pagesize' os' st' n' = (st', -1).
Proof.
  intros Hi Hrun. apply init_heap_flag in Hi.
  apply run_globals in Hrun. destruct Hrun as (_ & _ & Ho).
  unfold init_heap. rewrite Ho, Hi. reflexivity.
Qed.

Lemma init_heap_only_once_witness :
  init_heap 4096 (Mapped 131072)
            (run_or heap0 [Alloc 12; Free 65544; Alloc 100]) 8192 =
  (run_or heap0 [Alloc 12; Free 65544; Alloc 100], -1).
Proof.
  apply (init_heap_only_once 4096 (Mapped 65536) (boot (fun _ => 0)) 4096
           heap0 1000 [Alloc 12; Free 65544; Alloc 100]).
  - reflexivity.
  - vm_compute. reflexivity.
Defined.

(** X5. The failures of [init_heap].  A size that is not positive, or a
    call after one that succeeded, returns [-1] and changes nothing.  When
    the system denies [/dev/zero] or the mapping, the call returns [-1]
    with the store, [heap_start] and [heap_end] as they were and the
    one-shot flag still clear, but [alloc_size] already holds the
    page-rounded size (line 318 runs before the system is asked); a later
    call with a positive size is not affected by that. *)
Theorem init_heap_failures :
  (forall pagesize os st n, n <= 0 -> init_heap pagesize os st n = (st, -1)) /\
  (forall pagesize os st n,
     allocated_once st <> 0 -> init_heap pagesize os st n = (st, -1)) /\
  (forall pagesize os st n,
     allocated_once st = 0 -> 0 < n -> 0 < pagesize ->
     page_round n pagesize <= INT_MAX ->
     os = OpenFails \/ os = MmapFails ->
     init_heap pagesize os st n =
       (mkState (heap_start st) (page_round n pagesize) (heap_end st) 0
                (mem st), -1) /\
     forall pagesize' os' n', 0 < n' ->
       init_heap pagesize' os' (fst (init_heap pagesize os st n)) n' =
       init_heap pagesize' os' st n').
Proof.
  split_all.
  - intros pagesize os st n Hn. unfold init_heap.
    destruct (negb (allocated_once st =? 0)); [reflexivity|].
    replace (n <=? 0) with true by (symmetry; apply Z.leb_le; lia).
    reflexivity.
  - intros pagesize os st n Ho. unfold init_heap.
    replace (allocated_once st =? 0) with false
      by (symmetry; apply Z.eqb_neq; exact Ho).
    reflexivity.
  - intros pagesize os st n Ho Hn Hps Hfit Hos.
    assert (E : init_heap pagesize os st n =
                (mkState (heap_start st) (page_round n pagesize) (heap_end st)
                         0 (mem st), -1)).
    { destruct (page_round_facts n pagesize Hps Hn) as (Hr1 & Hr2 & Hr3).
      unfold init_heap. rewrite Ho. cbn [Z.eqb negb].
      replace (n <=? 0) with false by (symmetry; apply Z.leb_gt; lia).
      rewrite (Z.rem_mod_nonneg n pagesize) by lia.
      pose proof (Z.mod_pos_bound n pagesize Hps) as Hb.
      rewrite (wrap_small (pagesize - _)) by (unfold INT_MAX in *; lia).
      rewrite Z.rem_mod_nonneg by lia.
      rewrite page_round_eq by lia.
      rewrite wrap_small by (unfold INT_MAX in *; lia).
      destruct Hos as [-> | ->]; reflexivity. }
    split; [exact E|].
    intros pagesize' os' n' Hn'. rewrite E. cbn [fst].
    unfold init_heap. cbn [allocated_once heap_start heap_end mem].
    rewrite Ho. cbn [Z.eqb negb].
    replace (n' <=? 0) with false by (symmetry; apply Z.leb_gt; lia).
    reflexivity.
Qed.

Lemma init_heap_failures_witness :
  init_heap 4096 (Mapped 65536) (boot (fun _ => 0)) 0 =
    (boot (fun _ => 0), -1) /\
  init_heap 4096 (Mapped 131072) heap0 4096 = (heap0, -1) /\
  init_heap 4096 MmapFails (boot (fun _ => 0)) 5000 =
    (mkState NULL 8192 NULL 0 (fun _ => 0), -1) /\
  init_heap 4096 (Mapped 65536)
            (fst (init_heap 4096 MmapFails (boot (fun _ => 0)) 5000)) 4096 =
    init_heap 4096 (Mapped 65536) (boot (fun _ => 0)) 4096.
Proof.
  destruct init_heap_failures as (H1 & H2 & H3).
  split_all.
  - apply H1. lia.
  - apply H2. vm_compute. discriminate.
  - apply (H3 4096 MmapFails (boot (fun _ => 0)) 5000);
      [reflexivity | lia | lia | vm_compute; discriminate | right; reflexivity].
  - apply (H3 4096 MmapFails (boot (fun _ => 0)) 5000);
      [reflexivity | lia | lia | vm_compute; discriminate | right; reflexivity
      | lia].
Defined.

(** ** Calls before [init_heap] *)

(** X6. Before any [init_heap], when [heap_start] is still [NULL] and
    [alloc_size] still 0, the heap is empty for both calls: [alloc]
    returns [NULL] whatever the size, [free_block] returns [-1] whatever
    the pointer, and neither writes to the store. *)
Theorem calls_before_init fuel st n ptr :
  heap_start st = NULL -> alloc_size st = 0 ->
  (exists st', alloc (S fuel) st n = Some (st', NULL) /\ mem st' = mem st) /\
  snd (free_block st ptr) = -1 /\
  mem (fst (free_block st ptr)) = mem st.
Proof.
  intros Hs Ha. split.
  - unfold alloc. destruct (n <? 1); [eexists; split; reflexivity|].
    cbv zeta. cbn [set_heap_end heap_start alloc_size heap_end mem].
    rewrite Hs, Ha. cbn [best_fit_loop]. cbn.
    eexists. split; reflexivity.
  - destruct (free_block_status st ptr)
      as [(E & Hm & _)|(_ & Hn & _ & Hr & _)]; [auto|].
    unfold NULL in *. lia.
Qed.

Lemma calls_before_init_witness :
  (exists st', alloc 1 (boot (fun _ => 0)) 16 = Some (st', NULL) /\
               mem st' = mem (boot (fun _ => 0))) /\
  snd (free_block (boot (fun _ => 0)) 8) = -1 /\
  mem (fst (free_block (boot (fun _ => 0)) 8)) = mem (boot (fun _ => 0)).
Proof.
  apply (calls_before_init 0 (boot (fun _ => 0)) 16 8); reflexivity.
Defined.

(** ** [disp_heap] *)

Lemma used_free_total bl : used_total bl + free_total bl = total bl.
Proof.
  induction bl as [|[s al] r IH]; [reflexivity|].
  cbn [used_total free_total total]. destruct al; lia.
Qed.

Lemma used_free_nonneg m bl : forall a p,
  chain m a p bl -> 0 <= used_total bl /\ 0 <= free_total bl.
Proof.
  induction bl as [|[s al] r IH]; intros a p Hc; cbn [used_total free_total].
  - lia.
  - cbn [chain] in Hc. destruct Hc as (H8 & _ & _ & _ & Hc).
    apply IH in Hc. destruct al; lia.
Qed.

Lemma used_total_app l1 l2 :
  used_total (l1 ++ l2) = used_total l1 + used_total l2.
Proof.
  induction l1 as [|[s al] r IH]; cbn [app used_total]; [reflexivity|lia].
Qed.

Lemma free_total_app l1 l2 :
  free_total (l1 ++ l2) = free_total l1 + free_total l2.
Proof.
  induction l1 as [|[s al] r IH]; cbn [app free_total]; [reflexivity|lia].
Qed.

Lemma lines_of_length bl : forall k a p,
  length (lines_of k a p bl) = length bl.
Proof.
  induction bl as [|[s al] r IH]; intros k a p; cbn [lines_of length];
    [reflexivity|]. now rewrite IH.
Qed.

(** One turn of the loop of [disp_heap] on a block header. *)
Lemma disp_step m a s p al k u f :
  8 <= s -> s mod 8 = 0 -> s + 3 <= INT_MAX -> m a = hdr s p al ->
  0 <= u -> 0 <= f -> u + f + s <= INT_MAX -> 0 <= k < INT_MAX ->
  forall fuel,
    disp_loop (S fuel) m a k u f =
    match disp_loop fuel m (a + s) (k + 1)
                    (if al then u + s else u) (if al then f else f + s) with
    | Some (ls, u', f') => Some (mkLine k al p a (a + s - 1) s :: ls, u', f')
    | None => None
    end.
Proof.
  intros H8 Hm Hb Hh Hu Hf Huf Hk fuel. cbn [disp_loop]. rewrite Hh.
  pose proof (hdr_ge s p al H8).
  replace (hdr s p al =? 1) with false by (symmetry; apply Z.eqb_neq; lia).
  cbn [negb]. fold (a_bit (hdr s p al)). rewrite a_bit_hdr by auto.
  assert (E1 : (if negb ((if al then 1 else 0) =? 0)
                then wrap (hdr s p al - 1) else hdr s p al) = hdr s p false).
  { destruct al; cbn.
    - rewrite wrap_small by (unfold hdr, INT_MAX in *; destruct p; lia).
      unfold hdr. lia.
    - reflexivity. }
  rewrite E1. fold (p_bit (hdr s p false)). rewrite p_bit_hdr by auto.
  assert (E2 : (if negb ((if p then 2 else 0) =? 0)
                then wrap (hdr s p false - 2) else hdr s p false) = s).
  { destruct p; cbn.
    - rewrite wrap_small by (unfold hdr, INT_MAX in *; lia). unfold hdr. lia.
    - unfold hdr. lia. }
  rewrite E2.
  rewrite (wrap_small (k + 1)) by (unfold INT_MAX in *; lia).
  rewrite (wrap_small (u + s)) by (unfold INT_MAX in *; lia).
  rewrite (wrap_small (f + s)) by (unfold INT_MAX in *; lia).
  destruct al, p; reflexivity.
Qed.

(** On a chain that ends on a header equal to [1], the loop prints the
    lines of the chain and adds up its used and free bytes. *)
Lemma disp_loop_chain m bl : forall fuel a p k u f,
  chain m a p bl -> m (a + total bl) = 1 ->
  0 <= u -> 0 <= f -> u + f + total bl + 3 <= INT_MAX ->
  0 <= k -> k + Z.of_nat (length bl) <= INT_MAX ->
  (length bl < fuel)%nat ->
  disp_loop fuel m a k u f =
  Some (lines_of k a p bl, u + used_total bl, f + free_total bl).
Proof.
  induction bl as [|[s al] r IH]; intros fuel a p k u f Hc He Hu Hf Hb Hk Hkl Hfu;
    (destruct fuel as [|fuel]; [cbn in Hfu; lia|]).
  - cbn [total] in *. rewrite Z.add_0_r in *. cbn [disp_loop]. rewrite He.
    cbn. now rewrite !Z.add_0_r.
  - cbn [chain total length used_total free_total lines_of] in *.
    destruct Hc as (H8 & Hm & Hh & _ & Hc).
    pose proof (chain_total_nonneg _ _ _ _ Hc).
    rewrite (disp_step m a s p al) by (auto; lia).
    rewrite (IH fuel (a + s) al); auto; try (destruct al; lia).
    + destruct al; rewrite ?Z.add_0_l, ?Z.add_assoc; reflexivity.
    + now rewrite <- Z.add_assoc.
Qed.

(** The two loops of the traversal stop together. *)
Lemma disp_loop_walk m : forall fuel a k u f r,
  disp_loop fuel m a k u f = Some r ->
  exists bl e, walk fuel m a = Some (bl, e).
Proof.
  induction fuel as [|fuel IH]; intros a k u f r H; [discriminate|].
  cbn [disp_loop walk] in *. destruct (negb (m a =? 1)); [|eauto].
  destruct (disp_loop fuel m _ _ _ _) as [r'|] eqn:E; [|discriminate].
  apply IH in E. destruct E as (bl & e & ->). eauto.
Qed.

Lemma disp_heap_wf st bl fuel :
  well_formed st bl ->
  (length bl < fuel)%nat ->
  disp_heap fuel st =
  Some (mkReport (lines_of 1 (heap_start st) true bl)
                 (used_total bl) (free_total bl) (alloc_size st)).
Proof.
  intros [[Hs0 Hs4] Hsz Htot Hch Hend Hstale] Hf. unfold disp_heap.
  pose proof (chain_length _ _ _ _ Hch) as Hl.
  pose proof (chain_total_nonneg _ _ _ _ Hch) as Hn.
  rewrite (disp_loop_chain (mem st) bl fuel (heap_start st) true 1 0 0);
    auto; try (unfold INT_MAX in *; lia).
  - rewrite !Z.add_0_l, used_free_total, Htot.
    rewrite wrap_small by (unfold INT_MAX in *; lia). reflexivity.
  - now rewrite Htot.
Qed.

Lemma disp_heap_walk fuel st rep :
  disp_heap fuel st = Some rep ->
  exists bl e, walk fuel (mem st) (heap_start st) = Some (bl, e).
Proof.
  unfold disp_heap.
  destruct (disp_loop fuel _ _ _ _ _) as [r|] eqn:E; [|discriminate].
  intros _. eapply disp_loop_walk; eauto.
Qed.

(** What [disp_heap] reports on a reachable heap. *)
Lemma reachable_report fuel st rep :
  reachable st -> disp_heap fuel st = Some rep ->
  exists bl,
    well_formed st bl /\ (length bl < fuel)%nat /\
    rep = mkReport (lines_of 1 (heap_start st) true bl)
                   (used_total bl) (free_total bl) (alloc_size st).
Proof.
  intros Hr Hd. destruct (disp_heap_walk _ _ _ Hd) as (bl & e & Hw).
  destruct (reachable_walk _ _ _ _ Hr Hw) as (Hwf & _ & Hl).
  exists bl. split_all; auto.
  rewrite (disp_heap_wf st bl fuel Hwf Hl) in Hd. congruence.
Qed.

Lemma lines_of_app l1 l2 : forall k a p,
  lines_of k a p (l1 ++ l2) =
  lines_of k a p l1 ++
  lines_of (k + Z.of_nat (length l1)) (a + total l1) (last_status p l1) l2.
Proof.
  induction l1 as [|[s al] r IH]; intros k a p.
  - cbn. now rewrite !Z.add_0_r.
  - cbn [app lines_of length total last_status]. rewrite IH.
    replace (k + 1 + Z.of_nat (length r)) with (k + Z.of_nat (S (length r)))
      by lia.
    now rewrite Z.add_assoc.
Qed.

Lemma lines_of_split bl : forall k a p ls1 l ls2,
  lines_of k a p bl = ls1 ++ l :: ls2 ->
  exists l1 s al l2,
    bl = l1 ++ (s, al) :: l2 /\
    ls1 = lines_of k a p l1 /\
    l = mkLine (k + Z.of_nat (length l1)) al (last_status p l1)
               (a + total l1) (a + total l1 + s - 1) s /\
    ls2 = lines_of (k + Z.of_nat (length l1) + 1) (a + total l1 + s) al l2.
Proof.
  induction bl as [|[s al] r IH]; intros k a p ls1 l ls2 H.
  - destruct ls1; discriminate.
  - cbn [lines_of] in H. destruct ls1 as [|l0 ls1]; cbn [app] in H.
    + inversion H; subst. exists [], s, al, r. cbn.
      rewrite !Z.add_0_r. auto.
    + inversion H as [[E1 E2]]. apply IH in E2.
      destruct E2 as (l1 & s1 & al1 & l2 & -> & -> & -> & ->).
      exists ((s, al) :: l1), s1, al1, l2.
      cbn [app lines_of length total last_status].
      replace (k + Z.of_nat (S (length l1))) with (k + 1 + Z.of_nat (length l1))
        by lia.
      rewrite !Z.add_assoc. auto.
Qed.

(** X7. [disp_heap] on a reachable heap: the traversal ends, within
    [alloc_size / 8 + 1] turns of its loop; it prints one line for each
    block of the chain, in address order, and the totals it prints are the
    bytes of the allocated blocks, the bytes of the free blocks, and
    [alloc_size]: the used and the free size always add up to the arena. *)
Theorem disp_heap_report fuel st :
  reachable st ->
  alloc_size st < 8 * Z.of_nat fuel ->
  exists bl rep,
    walk fuel (mem st) (heap_start st) =
      Some (bl, heap_start st + alloc_size st) /\
    disp_heap fuel st = Some rep /\
    map (fun l => (l_begin l, l_size l, l_used l)) (r_lines rep) =
      layout (heap_start st) bl /\
    r_used rep = used_total bl /\ r_free rep = free_total bl /\
    r_used rep + r_free rep = alloc_size st /\
    r_total rep = alloc_size st.
Proof.
  intros Hr Hf. destruct (reachable_wf st Hr) as (bl & Hwf).
  pose proof (wf_fuel _ _ _ Hwf Hf) as Hl.
  exists bl. eexists. split; [apply wf_walk; auto|].
  split; [apply disp_heap_wf; eauto|].
  cbn [r_lines r_used r_free r_total]. split_all; auto.
  - generalize 1 (heap_start st) true. clear.
    induction bl as [|[s al] r IH]; intros k a p; cbn; [reflexivity|].
    now rewrite IH.
  - rewrite used_free_total. now destruct Hwf.
Qed.

Lemma disp_heap_report_witness :
  exists bl rep,
    walk 1000 (mem heap_16_40_24) (heap_start heap_16_40_24) =
      Some (bl, heap_start heap_16_40_24 + alloc_size heap_16_40_24) /\
    disp_heap 1000 heap_16_40_24 = Some rep /\
    map (fun l => (l_begin l, l_size l, l_used l)) (r_lines rep) =
      layout (heap_start heap_16_40_24) bl /\
    r_used rep = used_total bl /\ r_free rep = free_total bl /\
    r_used rep + r_free rep = alloc_size heap_16_40_24 /\
    r_total rep = alloc_size heap_16_40_24.
Proof.
  apply (disp_heap_report 1000 heap_16_40_24).
  - exact heap_16_40_24_reachable.
  - vm_compute. reflexivity.
Defined.

(** X8. The block list that [disp_heap] prints on a reachable heap is
    consistent from line to line: the first line is numbered 1, begins at
    [heap_start] and shows the previous block as used; each further line
    is numbered one more than the line before, begins at the byte after
    the end of that line, and shows in its Prev column what that line
    shows in its Status column; the last line ends on the byte before the
    end mark; a line never shows a free block after a free block. *)
Theorem disp_heap_lines fuel st rep :
  reachable st ->
  disp_heap fuel st = Some rep ->
  (exists l ls, r_lines rep = l :: ls /\
     l_counter l = 1 /\ l_begin l = heap_start st /\ l_prev_used l = true) /\
  (forall ls1 l l' ls2, r_lines rep = ls1 ++ l :: l' :: ls2 ->
     l_counter l' = l_counter l + 1 /\ l_begin l' = l_end l + 1 /\
     l_prev_used l' = l_used l /\ (l_used l = false -> l_used l' = true)) /\
  (forall ls1 l, r_lines rep = ls1 ++ [l] ->
     l_end l + 1 = heap_start st + alloc_size st) /\
  (forall l, In l (r_lines rep) ->
     l_end l = l_begin l + l_size l - 1 /\ 8 <= l_size l /\
     l_size l mod 8 = 0 /\ l_begin l mod 8 = 4).
Proof.
  intros Hr Hd. destruct (reachable_report _ _ _ Hr Hd) as (bl & Hwf & Hl & ->).
  pose proof (reachable_size _ Hr) as H8.
  pose proof Hwf as [[Hs0 Hs4] Hsz Htot Hch Hend Hstale].
  cbn [r_lines]. split_all.
  - destruct bl as [|[s al] r]; [cbn in Htot; lia|].
    cbn [lines_of]. eexists. eexists. split; [reflexivity|]. cbn. auto.
  - intros ls1 l l' ls2 E. apply lines_of_split in E.
    destruct E as (l1 & s & al & l2 & -> & _ & -> & E2).
    destruct l2 as [|[s' al'] r2]; [discriminate|].
    cbn [lines_of] in E2. inversion E2; subst. cbn.
    split_all; try lia; try reflexivity. intros ->.
    apply chain_app in Hch. destruct Hch as (_ & Hc). cbn [chain] in Hc.
    destruct Hc as (_ & _ & _ & _ & _ & _ & _ & Hp & _).
    destruct al'; auto. destruct Hp; auto.
  - intros ls1 l E. apply lines_of_split in E.
    destruct E as (l1 & s & al & l2 & -> & _ & -> & E2).
    destruct l2 as [|[s' al'] r2]; [|discriminate].
    cbn. rewrite total_app in Htot. cbn [total] in Htot. lia.
  - intros l Hin. apply in_split in Hin. destruct Hin as (ls1 & ls2 & E).
    apply lines_of_split in E.
    destruct E as (l1 & s & al & l2 & -> & _ & -> & _). cbn.
    destruct (wf_block_bound st _ (heap_start st + total l1) s al Hwf
                (layout_in _ _ _ _ _)) as (_ & H4 & Hs8 & _).
    apply chain_app in Hch. destruct Hch as (_ & Hc). cbn [chain] in Hc.
    destruct Hc as (_ & Hm8 & _). auto.
Qed.

Lemma disp_heap_lines_witness :
  exists rep, disp_heap 1000 heap_16_40_24 = Some rep /\
  (exists l ls, r_lines rep = l :: ls /\
     l_counter l = 1 /\ l_begin l = heap_start heap_16_40_24 /\
     l_prev_used l = true) /\
  (forall ls1 l l' ls2, r_lines rep = ls1 ++ l :: l' :: ls2 ->
     l_counter l' = l_counter l + 1 /\ l_begin l' = l_end l + 1 /\
     l_prev_used l' = l_used l /\ (l_used l = false -> l_used l' = true)) /\
  (forall ls1 l, r_lines rep = ls1 ++ [l] ->
     l_end l + 1 = heap_start heap_16_40_24 + alloc_size heap_16_40_24) /\
  (forall l, In l (r_lines rep) ->
     l_end l = l_begin l + l_size l - 1 /\ 8 <= l_size l /\
     l_size l mod 8 = 0 /\ l_begin l mod 8 = 4).
Proof.
  eexists. split; [vm_compute; reflexivity|].
  apply (disp_heap_lines 1000 heap_16_40_24).
  - exact heap_16_40_24_reachable.
  - vm_compute. reflexivity.
Defined.

(** ** [alloc]: what a successful call does to the heap *)

(** The outcome of a call of [alloc] that returned. *)
Lemma alloc_inv fuel st bl n st' p :
  well_formed st bl ->
  1 <= n -> required_size n <= INT_MAX ->
  alloc fuel st n = Some (st', p) ->
  let size := required_size n in
  let st0 := set_heap_end st (heap_limit st) in
  (no_fit size (layout (heap_start st) bl) /\ st' = st0 /\ p = NULL) \/
  (exists l1 l2 s,
     let x := heap_start st + total l1 in
     bl = l1 ++ (s, false) :: l2 /\
     best_fit size (layout (heap_start st) bl) x s /\ p = x + 4 /\
     ((s = size /\
       st' = set_mem st0 (exact_fit (mem st) (heap_limit st) x size) /\
       well_formed st' (l1 ++ (size, true) :: l2)) \/
      (size < s /\
       st' = set_mem st0 (split_block (mem st) x size) /\
       well_formed st' (l1 ++ (size, true) :: (s - size, false) :: l2)))).
Proof.
  intros Hwf Hn Hr Ha size st0.
  set (F := Nat.max fuel (S (length bl))).
  assert (HF : (length bl < F)%nat) by lia.
  apply alloc_mono with (fuel' := F) in Ha; [|lia].
  destruct (alloc_cases F st bl n Hwf Hn Hr HF)
    as [(Hno & E)|(l1 & l2 & s & Hbl & Hbest & [(Hs & E & W)|(Hs & E & W)])];
    rewrite E in Ha; inversion Ha; subst st' p.
  - left. auto.
  - right. exists l1, l2, s. cbv zeta. split_all; auto.
  - right. exists l1, l2, s. cbv zeta. split_all; auto.
Qed.

Lemma alloc_nonnull_request fuel st n st' p :
  alloc fuel st n = Some (st', p) -> p <> NULL -> 1 <= n.
Proof.
  intros Ha Hp. destruct (Z.ltb_spec n 1) as [Hn|Hn]; [|exact Hn].
  unfold alloc in Ha.
  replace (n <? 1) with true in Ha by (symmetry; apply Z.ltb_lt; lia).
  inversion Ha; subst. congruence.
Qed.

Lemma exact_fit_frame m he x size y :
  y <> x -> y <> x + size -> exact_fit m he x size y = m y.
Proof.
  intros H1 H2. unfold exact_fit.
  destruct (_ && _); now rewrite ?store_neq by assumption.
Qed.


Lemma hdr_used s p : hdr s p true = hdr s p false + 1.
Proof. unfold hdr. lia. Qed.

Lemma hdr_prev s al : hdr s true al = hdr s false al + 2.
Proof. unfold hdr. lia. Qed.

(** X9. The exact-match branch of [alloc] (lines 148-157): when the block
    that [alloc] returns was a free block of exactly the required size,
    the block is taken as it is and nothing is split: the chain reads as
    before but for the status of that block, its header word is one more
    than it was (the a-bit), the header of the block after it is two more
    than it was (the p-bit), unless what comes after is the end mark, which
    keeps its value [1], and no other word of the store changes. *)
Theorem alloc_exact_fit fuel st bl e n st' p :
  reachable st ->
  walk fuel (mem st) (heap_start st) = Some (bl, e) ->
  alloc fuel st n = Some (st', p) ->
  In (p - 4, required_size n, false) (layout (heap_start st) bl) ->
  let r := required_size n in
  exists l1 l2,
    bl = l1 ++ (r, false) :: l2 /\ p - 4 = heap_start st + total l1 /\
    walk fuel (mem st') (heap_start st') = Some (l1 ++ (r, true) :: l2, e) /\
    mem st' (p - 4) = mem st (p - 4) + 1 /\
    (l2 = [] -> mem st' (p - 4 + r) = 1) /\
    (l2 <> [] -> mem st' (p - 4 + r) = mem st (p - 4 + r) + 2) /\
    forall y, y <> p - 4 -> y <> p - 4 + r -> mem st' y = mem st y.
Proof.
  intros Hr Hw Ha Hin r.
  destruct (reachable_walk _ _ _ _ Hr Hw) as (Hwf & -> & Hl).
  destruct (wf_block_bound _ _ _ _ _ Hwf Hin) as (Hp4 & _ & _ & Hmax & _).
  assert (Hp : p <> NULL) by (unfold NULL; lia).
  pose proof (alloc_nonnull_request _ _ _ _ _ Ha Hp) as Hn.
  assert (Hrange : required_size n <= INT_MAX) by lia.
  pose proof Hwf as [_ _ _ Hch _ _].
  destruct (alloc_inv _ _ _ _ _ _ Hwf Hn Hrange Ha)
    as [(_ & _ & E)|(l1 & l2 & s & Hbl & Hbest & Hpx & Hcase)];
    [congruence|].
  cbv zeta in Hbest, Hpx, Hcase.
  replace (p - 4) with (heap_start st + total l1) in * by lia.
  destruct Hbest as (Hin' & _).
  destruct (layout_unique _ _ _ _ _ _ _ _ _ Hch Hin Hin') as (Es & _).
  fold r in Es, Hcase. destruct Hcase as [(_ & Est & W)|(Hlt & _)]; [|lia].
  subst s. exists l1, l2. split; [exact Hbl|]. split; [reflexivity|].
  assert (Hhs : heap_start st' = heap_start st) by (subst st'; reflexivity).
  assert (Has : alloc_size st' = alloc_size st) by (subst st'; reflexivity).
  pose proof W as [_ _ Htot' Hch' Hend' _].
  rewrite Hhs in Hch', Hend'. rewrite Has in Hend'.
  subst bl. apply chain_app in Hch, Hch'.
  destruct Hch as (_ & Hc), Hch' as (_ & Hc'). cbn [chain] in Hc, Hc'.
  destruct Hc as (_ & _ & Hh & _ & Hc2), Hc' as (_ & _ & Hh' & _ & Hc2').
  split_all.
  - rewrite Hhs, <- Has, <- Hhs. apply wf_walk; auto.
    rewrite length_app in *. cbn [length] in *. exact Hl.
  - rewrite Hh, Hh'. apply hdr_used.
  - intros ->. rewrite <- Hend'. f_equal.
    rewrite Has, total_app in Htot'. cbn [total] in Htot'. lia.
  - intros Hne. destruct l2 as [|[s2 al2] r2]; [congruence|].
    cbn [chain] in Hc2, Hc2'.
    destruct Hc2 as (_ & _ & Hn2 & _), Hc2' as (_ & _ & Hn2' & _).
    rewrite Hn2, Hn2'. apply hdr_prev.
  - intros y Hy1 Hy2. rewrite Est. cbn [set_mem mem].
    now apply exact_fit_frame.
Qed.

Lemma alloc_exact_fit_witness :
  exists l1 l2,
    [(16, false); (8, true); (40, false); (8, true); (24, false); (8, true);
     (3984, false)] = l1 ++ (24, false) :: l2 /\
    65616 - 4 = heap_start heap_16_40_24 + total l1 /\
    walk 100 (mem (state_after_alloc 100 heap_16_40_24 20))
         (heap_start (state_after_alloc 100 heap_16_40_24 20)) =
      Some (l1 ++ (24, true) :: l2, 69628) /\
    mem (state_after_alloc 100 heap_16_40_24 20) (65616 - 4) =
      mem heap_16_40_24 (65616 - 4) + 1 /\
    (l2 = [] ->
     mem (state_after_alloc 100 heap_16_40_24 20) (65616 - 4 + 24) = 1) /\
    (l2 <> [] ->
     mem (state_after_alloc 100 heap_16_40_24 20) (65616 - 4 + 24) =
     mem heap_16_40_24 (65616 - 4 + 24) + 2) /\
    forall y, y <> 65616 - 4 -> y <> 65616 - 4 + 24 ->
      mem (state_after_alloc 100 heap_16_40_24 20) y = mem heap_16_40_24 y.
Proof.
  apply (alloc_exact_fit 100 heap_16_40_24 _ 69628 20
           (state_after_alloc 100 heap_16_40_24 20) 65616).
  - exact heap_16_40_24_reachable.
  - vm_compute. reflexivity.
  - vm_compute. reflexivity.
  - in_list.
Defined.

(** X10. The frame of [alloc]: a call that returns a block writes only
    inside the free block it selected and to the header word right after
    it.  Every word below the selected header, and every word beyond the
    header that follows the selected block, is as before; so are
    [heap_start], [alloc_size] and the one-shot flag of [init_heap]. *)
Theorem alloc_frame fuel st n st' p :
  reachable st ->
  required_size n <= INT_MAX ->
  alloc fuel st n = Some (st', p) ->
  p <> NULL ->
  let a := p - 4 in
  let s := size_of (mem st a) in
  a_bit (mem st a) = 0 /\
  heap_start st <= a /\ a + s <= heap_start st + alloc_size st /\
  (forall y, y < a \/ a + s < y -> mem st' y = mem st y) /\
  heap_start st' = heap_start st /\ alloc_size st' = alloc_size st /\
  allocated_once st' = allocated_once st.
Proof.
  intros Hr Hrange Ha Hp a s.
  destruct (reachable_wf st Hr) as (bl & Hwf).
  pose proof (alloc_nonnull_request _ _ _ _ _ Ha Hp) as Hn.
  destruct (alloc_globals _ _ _ _ _ Ha) as (Hhs & Has & Hao).
  destruct (alloc_inv _ _ _ _ _ _ Hwf Hn Hrange Ha)
    as [(_ & _ & E)|(l1 & l2 & s0 & Hbl & Hbest & Hpx & Hcase)];
    [congruence|].
  cbv zeta in Hbest, Hpx, Hcase. subst bl.
  assert (Ea : a = heap_start st + total l1) by (unfold a; lia).
  pose proof (alloc_wf_facts st l1 l2 s0 Hwf)
    as (Ht1 & _ & Ht2 & Hsum & _ & H8 & Hm8 & _ & Hh & _).
  cbv zeta in Hh, Hsum.
  assert (Es : s = s0).
  { unfold s. rewrite Ea, Hh. now apply size_of_hdr. }
  split_all; auto; try lia.
  - rewrite Ea, Hh. now rewrite a_bit_hdr.
  - intros y Hy. rewrite Es, Ea in Hy.
    pose proof (required_size_facts n) as Hrf.
    destruct Hbest as (_ & Hle & _).
    destruct Hcase as [(Hs & Est & _)|(Hlt & Est & _)]; rewrite Est;
      cbn [set_mem mem].
    + apply exact_fit_frame; lia.
    + rewrite (split_eq st l1 l2 s0 Hwf (required_size n)) by lia.
      rewrite !store_neq by lia. reflexivity.
Qed.

Lemma alloc_frame_witness :
  a_bit (mem heap_16_40_24 (65568 - 4)) = 0 /\
  heap_start heap_16_40_24 <= 65568 - 4 /\
  65568 - 4 + size_of (mem heap_16_40_24 (65568 - 4)) <=
    heap_start heap_16_40_24 + alloc_size heap_16_40_24 /\
  (forall y,
     y < 65568 - 4 \/
     65568 - 4 + size_of (mem heap_16_40_24 (65568 - 4)) < y ->
     mem (state_after_alloc 100 heap_16_40_24 28) y = mem heap_16_40_24 y) /\
  heap_start (state_after_alloc 100 heap_16_40_24 28) =
    heap_start heap_16_40_24 /\
  alloc_size (state_after_alloc 100 heap_16_40_24 28) =
    alloc_size heap_16_40_24 /\
  allocated_once (state_after_alloc 100 heap_16_40_24 28) =
    allocated_once heap_16_40_24.
Proof.
  apply (alloc_frame 100 heap_16_40_24 28
           (state_after_alloc 100 heap_16_40_24 28) 65568).
  - exact heap_16_40_24_reachable.
  - vm_compute. discriminate.
  - vm_compute. reflexivity.
  - discriminate.
Defined.



(** ** [free_block]: what a successful call does to the heap *)

Lemma release_list_length l1 s l2 :
  (length (release_list l1 s l2) <= length (l1 ++ (s, true) :: l2))%nat.
Proof.
  unfold release_list.
  destruct (merge_bwd l1) as [front sb] eqn:Eb.
  destruct (merge_fwd l2) as [sf rest] eqn:Ef.
  rewrite !length_app. cbn [length].
  assert (length front <= length l1)%nat.
  { destruct (merge_bwd_spec l1) as [(_ & E)|(l0 & s0 & E1 & E & _)];
      rewrite E in Eb; inversion Eb; subst; auto.
    rewrite length_app. apply Nat.le_add_r. }
  assert (length rest <= length l2)%nat.
  { destruct (merge_fwd_spec l2) as [(s2 & r2 & E1 & E)|(E & _)];
      rewrite E in Ef; inversion Ef; subst; auto.
    cbn [length]. apply Nat.le_succ_diag_r. }
  unfold block in *. lia.
Qed.

Lemma release_list_totals l1 s l2 :
  total (release_list l1 s l2) = total (l1 ++ (s, true) :: l2) /\
  used_total (release_list l1 s l2) =
    used_total (l1 ++ (s, true) :: l2) - s /\
  free_total (release_list l1 s l2) =
    free_total (l1 ++ (s, true) :: l2) + s.
Proof.
  unfold release_list.
  destruct (merge_bwd l1) as [front sb] eqn:Eb.
  destruct (merge_fwd l2) as [sf rest] eqn:Ef.
  rewrite !total_app, !used_total_app, !free_total_app.
  cbn [total used_total free_total].
  assert (total l1 = total front + sb /\ used_total l1 = used_total front /\
          free_total l1 = free_total front + sb) as (A1 & A2 & A3).
  { destruct (merge_bwd_spec l1) as [(_ & E)|(l0 & s0 & E1 & E & _)];
      rewrite E in Eb; inversion Eb; subst; [lia|].
    rewrite total_app, used_total_app, free_total_app.
    cbn [total used_total free_total]. lia. }
  assert (total l2 = sf + total rest /\ used_total l2 = used_total rest /\
          free_total l2 = sf + free_total rest) as (B1 & B2 & B3).
  { destruct (merge_fwd_spec l2) as [(s2 & r2 & E1 & E)|(E & _)];
      rewrite E in Ef; inversion Ef; subst; [|lia].
    cbn [total used_total free_total]. lia. }
  lia.
Qed.

(** X12. Coalescing, on the block list: releasing the allocated block
    that sits between the blocks [l1] and the blocks [l2] of the chain
    succeeds, and the chain then reads [release_list l1 s l2]: the block
    is free, a free block right before it and a free block right after it
    are merged into it, all other blocks are as before, and the sizes
    still add up to the same total. *)
Theorem free_block_coalesces fuel st l1 s l2 e :
  reachable st ->
  walk fuel (mem st) (heap_start st) = Some (l1 ++ (s, true) :: l2, e) ->
  let ptr := heap_start st + total l1 + 4 in
  let st' := fst (free_block st ptr) in
  snd (free_block st ptr) = 0 /\
  walk fuel (mem st') (heap_start st') = Some (release_list l1 s l2, e) /\
  total (release_list l1 s l2) = total (l1 ++ (s, true) :: l2).
Proof.
  intros Hr Hw ptr st'.
  destruct (reachable_walk _ _ _ _ Hr Hw) as (Hwf & -> & Hl).
  destruct (release_spec st l1 s l2 Hwf)
    as (front & sb & sf & rest & Eb & Ef & _ & _ & _ & _ & _ & _ & Hret &
        Hhs & Has & _ & Hwf' & _).
  fold ptr in Hret, Hhs, Has, Hwf'. fold st' in Hhs, Has, Hwf'.
  assert (El : release_list l1 s l2 = front ++ (sb + s + sf, false) :: rest).
  { unfold release_list. now rewrite Eb, Ef. }
  split_all; auto.
  - rewrite <- Hhs, <- Has, El. apply wf_walk; auto.
    rewrite <- El. pose proof (release_list_length l1 s l2).
    unfold block in *. lia.
  - apply release_list_totals.
Qed.

Lemma free_block_coalesces_witness :
  snd (free_block heap_16_40 (heap_start heap_16_40 + total
         [(16, false); (8, true); (40, false); (8, true)] + 4)) = 0 /\
  walk 100
    (mem (fst (free_block heap_16_40 (heap_start heap_16_40 + total
            [(16, false); (8, true); (40, false); (8, true)] + 4))))
    (heap_start (fst (free_block heap_16_40 (heap_start heap_16_40 + total
            [(16, false); (8, true); (40, false); (8, true)] + 4)))) =
  Some (release_list [(16, false); (8, true); (40, false); (8, true)] 24
          [(8, true); (3984, false)], 69628) /\
  total (release_list [(16, false); (8, true); (40, false); (8, true)] 24
           [(8, true); (3984, false)]) =
  total ([(16, false); (8, true); (40, false); (8, true)] ++
         (24, true) :: [(8, true); (3984, false)]).
Proof.
  apply (free_block_coalesces 100 heap_16_40
           [(16, false); (8, true); (40, false); (8, true)] 24
           [(8, true); (3984, false)] 69628).
  - exact heap_16_40_reachable.
  - vm_compute. reflexivity.
Defined.

(** The words a successful release writes, and the merged block. *)
Lemma release_frame st l1 s l2 :
  well_formed st (l1 ++ (s, true) :: l2) ->
  let x := heap_start st + total l1 in
  let st' := fst (free_block st (x + 4)) in
  exists a T,
    a <= x /\ x + s <= a + T /\
    heap_start st <= a /\ a + T <= heap_start st + alloc_size st /\
    size_of (mem st' a) = T /\ a_bit (mem st' a) = 0 /\
    mem st' (a + T - 4) = T /\
    forall y, y <> a -> y <> x -> y <> a + T - 4 -> y <> a + T ->
      mem st' y = mem st y.
Proof.
  intros Hwf x st'.
  destruct (merge_bwd l1) as [front sb] eqn:Eb.
  destruct (merge_fwd l2) as [sf rest] eqn:Ef.
  pose proof (release_facts st l1 l2 s Hwf (heap_start st)
                (heap_start st + alloc_size st) x (mem st)
                (last_status true l1) eq_refl eq_refl eq_refl eq_refl eq_refl)
    as (_ & _ & _ & Hsum & _ & H8 & Hm8 & _).
  pose proof (release_fwd_facts st l1 l2 s Hwf (heap_start st)
                (heap_start st + alloc_size st) x (mem st)
                (last_status true l1) eq_refl eq_refl eq_refl eq_refl eq_refl
                rest sf Ef) as (Ht2 & Hcr & _ & Hfwd).
  pose proof (release_bwd_facts st l1 l2 s Hwf (heap_start st)
                (heap_start st + alloc_size st) x (mem st)
                (last_status true l1) eq_refl eq_refl eq_refl eq_refl eq_refl
                front sb Eb) as (Ht1 & Hcf & _ & Hbwd).
  destruct (release_mem st l1 l2 s Hwf (heap_start st)
              (heap_start st + alloc_size st) x
              (mem st) (last_status true l1) eq_refl eq_refl eq_refl eq_refl
              eq_refl front rest sb sf Eb Ef)
    as (m5 & Hfree & Hhead & Hfoot & _ & _ & Hother).
  pose proof (chain_total_nonneg _ _ _ _ Hcr).
  pose proof (chain_total_nonneg _ _ _ _ Hcf).
  assert (Hsb : 0 <= sb /\ sb mod 8 = 0)
    by (destruct Hbwd as [(_ & -> & _)|(_ & ? & ? & _)]; split; auto; lia).
  assert (Hsf : 0 <= sf /\ sf mod 8 = 0)
    by (destruct Hfwd as [(-> & _)|(? & ? & _)]; split; auto; lia).
  assert (HT : (sb + s + sf) mod 8 = 0) by modarith.
  exists (x - sb), (sb + s + sf).
  unfold st'. rewrite Hfree. cbn [fst set_mem mem].
  split_all; try (unfold x in *; lia).
  - rewrite Hhead. now apply size_of_hdr.
  - rewrite Hhead. now rewrite a_bit_hdr.
  - replace (x - sb + (sb + s + sf) - 4) with (x + s + sf - 4) by lia.
    exact Hfoot.
  - intros y H1 H2 H3 H4. apply Hother; auto; lia.
Qed.

(** X13. The frame of [free_block]: a successful call writes at most four
    words, all of them inside the free block that results or right after
    it: its header, the header of the released block, its footer, and the
    header that follows it.  Every other word of the store is as before,
    the payload of every block included.  The resulting free block
    contains the released block and lies inside the arena. *)
Theorem free_block_frame st ptr :
  reachable st ->
  snd (free_block st ptr) = 0 ->
  let st' := fst (free_block st ptr) in
  exists a T,
    a <= ptr - 4 /\ ptr - 4 + size_of (mem st (ptr - 4)) <= a + T /\
    heap_start st <= a /\ a + T <= heap_start st + alloc_size st /\
    size_of (mem st' a) = T /\ a_bit (mem st' a) = 0 /\
    mem st' (a + T - 4) = T /\
    forall y, y <> a -> y <> ptr - 4 -> y <> a + T - 4 -> y <> a + T ->
      mem st' y = mem st y.
Proof.
  intros Hr Hret st'. destruct (reachable_wf st Hr) as (bl & Hwf).
  destruct (free_block_valid st bl ptr Hwf Hret) as (l1 & s & l2 & -> & Hp).
  assert (Es : size_of (mem st (ptr - 4)) = s).
  { pose proof Hwf as [_ _ _ Hch _ _]. apply chain_app in Hch.
    destruct Hch as (_ & Hc). cbn [chain] in Hc.
    destruct Hc as (_ & Hm8 & Hh & _).
    replace (ptr - 4) with (heap_start st + total l1) by lia.
    rewrite Hh. now apply size_of_hdr. }
  destruct (release_frame st l1 s l2 Hwf) as (a & T & H).
  cbv zeta in H.
  replace (heap_start st + total l1 + 4) with ptr in H by lia.
  replace (heap_start st + total l1) with (ptr - 4) in H by lia.
  exists a, T. rewrite Es. exact H.
Qed.

Lemma free_block_frame_witness :
  exists a T,
    a <= 65616 - 4 /\
    65616 - 4 + size_of (mem heap_16_40 (65616 - 4)) <= a + T /\
    heap_start heap_16_40 <= a /\
    a + T <= heap_start heap_16_40 + alloc_size heap_16_40 /\
    size_of (mem (fst (free_block heap_16_40 65616)) a) = T /\
    a_bit (mem (fst (free_block heap_16_40 65616)) a) = 0 /\
    mem (fst (free_block heap_16_40 65616)) (a + T - 4) = T /\
    forall y, y <> a -> y <> 65616 - 4 -> y <> a + T - 4 -> y <> a + T ->
      mem (fst (free_block heap_16_40 65616)) y = mem heap_16_40 y.
Proof.
  apply (free_block_frame heap_16_40 65616).
  - exact heap_16_40_reachable.
  - vm_compute. reflexivity.
Defined.

(** X14. [free_block] never releases what is not allocated: on a heap
    that only [init_heap], [alloc] and [free_block] have written to, a
    call that returns 0 was given the payload address of an allocated
    block of the chain; a pointer into the middle of a block, to a free
    block or to a block that was merged away is rejected. *)
Theorem free_block_only_allocated fuel st bl e ptr :
  reachable st ->
  walk fuel (mem st) (heap_start st) = Some (bl, e) ->
  snd (free_block st ptr) = 0 ->
  exists s, In (ptr - 4, s, true) (layout (heap_start st) bl).
Proof.
  intros Hr Hw Hret.
  destruct (reachable_walk _ _ _ _ Hr Hw) as (Hwf & _ & _).
  destruct (free_block_valid st bl ptr Hwf Hret) as (l1 & s & l2 & -> & ->).
  exists s. replace (heap_start st + total l1 + 4 - 4)
    with (heap_start st + total l1) by lia.
  apply layout_in.
Qed.

Lemma free_block_only_allocated_witness :
  exists s,
    In (65616 - 4, s, true)
       (layout (heap_start heap_16_40)
          [(16, false); (8, true); (40, false); (8, true); (24, true);
           (8, true); (3984, false)]).
Proof.
  apply (free_block_only_allocated 100 heap_16_40 _ 69628 65616).
  - exact heap_16_40_reachable.
  - vm_compute. reflexivity.
  - vm_compute. reflexivity.
Defined.

(** ** Invariants of the chain *)

(** X15. The header and footer invariants of the data model hold on every
    reachable heap, at every block of the chain: the header is at an
    address congruent to 4 modulo 8, its size field is the size of the
    block, its a-bit is the status of the block, and its p-bit is the
    status of the block before it (set for the first block); a free block
    holds its size in its last word, follows an allocated block and is
    followed by an allocated block or by the end mark; the word after the
    last block is the end mark. *)
Theorem chain_headers_and_footers fuel st l1 s al l2 e :
  reachable st ->
  walk fuel (mem st) (heap_start st) = Some (l1 ++ (s, al) :: l2, e) ->
  let a := heap_start st + total l1 in
  a mod 8 = 4 /\
  size_of (mem st a) = s /\
  a_bit (mem st a) = (if al then 1 else 0) /\
  p_bit (mem st a) = (if last_status true l1 then 2 else 0) /\
  (al = false ->
   mem st (a + s - 4) = s /\ last_status true l1 = true /\
   match l2 with [] => True | (_, al2) :: _ => al2 = true end) /\
  (l2 = [] -> mem st (a + s) = 1).
Proof.
  intros Hr Hw a.
  destruct (reachable_walk _ _ _ _ Hr Hw) as (Hwf & _ & _).
  destruct (wf_block_bound st _ a s al Hwf (layout_in _ _ _ _ _))
    as (_ & H4 & _).
  pose proof Hwf as [_ _ Htot Hch Hend _].
  apply chain_app in Hch. destruct Hch as (_ & Hc). cbn [chain] in Hc.
  destruct Hc as (H8 & Hm8 & Hh & Hfree & Hc2). fold a in Hh, Hfree, Hc2.
  split_all; auto.
  - rewrite Hh. now apply size_of_hdr.
  - rewrite Hh. now apply a_bit_hdr.
  - rewrite Hh. now apply p_bit_hdr.
  - intros ->. destruct (Hfree eq_refl) as (Hp & Hf). split_all; auto.
    destruct l2 as [|[s2 al2] r2]; [exact I|]. cbn [chain] in Hc2.
    destruct Hc2 as (_ & _ & _ & Hf2 & _).
    destruct al2; [reflexivity|]. destruct (Hf2 eq_refl). discriminate.
  - intros ->. rewrite <- Hend. f_equal.
    rewrite total_app in Htot. cbn [total] in Htot. unfold a. lia.
Qed.

Lemma chain_headers_and_footers_witness :
  (heap_start heap_16_40_24 + total [(16, false); (8, true)]) mod 8 = 4 /\
  size_of (mem heap_16_40_24
             (heap_start heap_16_40_24 + total [(16, false); (8, true)])) =
    40 /\
  a_bit (mem heap_16_40_24
           (heap_start heap_16_40_24 + total [(16, false); (8, true)])) = 0 /\
  p_bit (mem heap_16_40_24
           (heap_start heap_16_40_24 + total [(16, false); (8, true)])) = 2 /\
  (false = false ->
   mem heap_16_40_24
       (heap_start heap_16_40_24 + total [(16, false); (8, true)] + 40 - 4) =
     40 /\
   true = true /\ true = true) /\
  ([(8, true); (24, false); (8, true); (3984, false)] = [] ->
   mem heap_16_40_24
       (heap_start heap_16_40_24 + total [(16, false); (8, true)] + 40) = 1).
Proof.
  apply (chain_headers_and_footers 100 heap_16_40_24
           [(16, false); (8, true)] 40 false
           [(8, true); (24, false); (8, true); (3984, false)] 69628).
  - exact heap_16_40_24_reachable.
  - vm_compute. reflexivity.
Defined.

Lemma all_free_short bl :
  no_adjacent_free bl -> Forall (fun b : block => snd b = false) bl ->
  (length bl <= 1)%nat.
Proof.
  intros Hn Hf. destruct bl as [|[s al] [|[s2 al2] r]]; cbn [length]; try lia.
  inversion Hf as [|? ? H1 H2]; subst. inversion H2 as [|? ? H3 _]; subst.
  cbn in H1, H3. subst. destruct Hn.
Qed.

(** X16. No fragmentation is left behind: on a reachable heap in which no
    block is allocated, the chain is a single free block that spans the
    whole arena, as it was right after [init_heap]. *)
Theorem all_free_is_one_block fuel st bl e :
  reachable st ->
  walk fuel (mem st) (heap_start st) = Some (bl, e) ->
  Forall (fun b : block => snd b = false) bl ->
  bl = [(alloc_size st, false)].
Proof.
  intros Hr Hw Hall.
  destruct (reachable_walk _ _ _ _ Hr Hw) as (Hwf & _ & _).
  pose proof (reachable_size _ Hr) as H8.
  pose proof Hwf as [_ _ Htot Hch _ _].
  pose proof (all_free_short bl (chain_no_adjacent_free _ _ _ _ Hch) Hall)
    as Hlen.
  destruct bl as [|[s al] [|b r]]; cbn [length] in Hlen; try lia.
  - cbn in Htot. lia.
  - inversion Hall as [|? ? H1 _]; subst. cbn in H1, Htot. subst al.
    f_equal. f_equal. lia.
Qed.

Lemma all_free_is_one_block_witness :
  [(4088, false)] =
  [(alloc_size (run_or heap0 [Alloc 12; Alloc 100; Alloc 20;
                              Free 65560; Free 65544; Free 65664]), false)].
Proof.
  apply (all_free_is_one_block 100
           (run_or heap0 [Alloc 12; Alloc 100; Alloc 20;
                          Free 65560; Free 65544; Free 65664])
           [(4088, false)] 69628).
  - apply run_or_reachable; [exact heap0_reachable|in_range_list].
  - vm_compute. reflexivity.
  - repeat constructor.
Defined.

(** ** The totals of [disp_heap] across calls *)



(** X18. The bookkeeping of [free_block] as [disp_heap] shows it: a
    successful call moves exactly the size of the released block from the
    used total to the free total, and the block list gets no longer; a
    call that returns [-1] leaves the report as it was. *)
Theorem free_block_accounting fuel st ptr rep :
  reachable st ->
  disp_heap fuel st = Some rep ->
  let st' := fst (free_block st ptr) in
  let s := size_of (mem st (ptr - 4)) in
  (snd (free_block st ptr) = -1 -> disp_heap fuel st' = Some rep) /\
  (snd (free_block st ptr) = 0 ->
   exists rep',
     disp_heap fuel st' = Some rep' /\
     r_used rep' = r_used rep - s /\
     r_free rep' = r_free rep + s /\
     r_total rep' = r_total rep /\
     (length (r_lines rep') <= length (r_lines rep))%nat).
Proof.
  intros Hr Hd st' s.
  destruct (reachable_report _ _ _ Hr Hd) as (bl & Hwf & Hl & ->).
  destruct (free_block_globals st ptr) as (Hhs & Has & _).
  fold st' in Hhs, Has.
  split.
  - intros Hret.
    destruct (free_block_status st ptr) as [(_ & Hm & _)|(E & _)];
      [|congruence].
    fold st' in Hm. unfold disp_heap in *. now rewrite Hm, Hhs.
  - intros Hret.
    destruct (free_block_wf st bl ptr Hwf)
      as [(E & _)|(l1 & s0 & l2 & Hbl & Hp & _ & W)]; [congruence|].
    fold st' in W. subst bl.
    assert (Es : s = s0).
    { pose proof Hwf as [_ _ _ Hch _ _]. apply chain_app in Hch.
      destruct Hch as (_ & Hc). cbn [chain] in Hc.
      destruct Hc as (_ & Hm8 & Hh & _). unfold s.
      replace (ptr - 4) with (heap_start st + total l1) by lia.
      rewrite Hh. now apply size_of_hdr. }
    pose proof (release_list_length l1 s0 l2) as Hlen.
    pose proof (release_list_totals l1 s0 l2) as (_ & Hu & Hf).
    eexists. split.
    + apply disp_heap_wf; [exact W|]. unfold block in *. lia.
    + cbn [r_lines r_used r_free r_total]. rewrite !lines_of_length, Es.
      split_all; auto.
Qed.

Lemma free_block_accounting_witness :
  (snd (free_block heap_16_40 65616) = -1 ->
   disp_heap 100 (fst (free_block heap_16_40 65616)) =
   Some (mkReport (lines_of 1 65540 true
                     [(16, false); (8, true); (40, false); (8, true);
                      (24, true); (8, true); (3984, false)])
                  48 4040 4088)) /\
  (snd (free_block heap_16_40 65616) = 0 ->
   exists rep',
     disp_heap 100 (fst (free_block heap_16_40 65616)) = Some rep' /\
     r_used rep' = 48 - size_of (mem heap_16_40 (65616 - 4)) /\
     r_free rep' = 4040 + size_of (mem heap_16_40 (65616 - 4)) /\
     r_total rep' = 4088 /\
     (length (r_lines rep') <= 7)%nat).
Proof.
  apply (free_block_accounting 100 heap_16_40 65616
           (mkReport (lines_of 1 65540 true
                        [(16, false); (8, true); (40, false); (8, true);
                         (24, true); (8, true); (3984, false)])
                     48 4040 4088)).
  - exact heap_16_40_reachable.
  - vm_compute. reflexivity.
Defined.

(** ** Termination and reuse *)



(** X20. Released memory can be handed out again: right after a
    successful [free_block], a request that fits in the released block
    (with its header) is served by [alloc], which returns a pointer other
    than [NULL]. *)
Theorem release_then_alloc fuel st ptr n :
  reachable st ->
  alloc_size st < 8 * Z.of_nat fuel ->
  snd (free_block st ptr) = 0 ->
  1 <= n -> n + 4 <= size_of (mem st (ptr - 4)) ->
  exists st' p,
    alloc fuel (fst (free_block st ptr)) n = Some (st', p) /\ p <> NULL /\
    a_bit (mem st' (p - 4)) = 1.
Proof.
  intros Hr Hf Hret Hn Hfit. destruct (reachable_wf st Hr) as (bl & Hwf).
  destruct (free_block_globals st ptr) as (Hhs & Has & _).
  destruct (free_block_wf st bl ptr Hwf)
    as [(E & _)|(l1 & s & l2 & Hbl & Hp & _ & W)]; [congruence|].
  subst bl.
  assert (Es : size_of (mem st (ptr - 4)) = s /\ s mod 8 = 0 /\
               s + 3 <= INT_MAX).
  { destruct (wf_block_bound st _ _ s true Hwf (layout_in _ _ _ _ _))
      as (_ & _ & _ & Hmax & _).
    pose proof Hwf as [_ _ _ Hch _ _]. apply chain_app in Hch.
    destruct Hch as (_ & Hc). cbn [chain] in Hc.
    destruct Hc as (_ & Hm8 & Hh & _).
    replace (ptr - 4) with (heap_start st + total l1) by lia.
    rewrite Hh. split_all; auto. now apply size_of_hdr. }
  destruct Es as (Es & Hm8 & Hmax). rewrite Es in Hfit.
  assert (Hreq : required_size n <= s) by (unfold required_size; modarith).
  set (st1 := fst (free_block st ptr)) in *.
  assert (Hin : exists a T, In (a, T, false)
                  (layout (heap_start st1) (release_list l1 s l2)) /\ s <= T).
  { destruct (release_spec st l1 s l2 Hwf)
      as (front & sb & sf & rest & Eb & Ef & _ & _ & Hsb & Hsf & _).
    unfold release_list. rewrite Eb, Ef.
    exists (heap_start st1 + total front), (sb + s + sf).
    split; [apply layout_in|lia]. }
  destruct Hin as (a & T & Hin & HT).
  assert (Hl : (length (release_list l1 s l2) < fuel)%nat).
  { apply (wf_fuel st1); auto. rewrite Has. exact Hf. }
  destruct (alloc_cases fuel st1 _ n W Hn ltac:(unfold INT_MAX in *; lia) Hl)
    as [(Hno & _)|(k1 & k2 & s0 & Hbl & Hbest & Hcase)].
  - specialize (Hno a T Hin). lia.
  - cbv zeta in Hbest, Hcase.
    destruct (wf_block_bound st1 _ _ _ _ W (proj1 Hbest)) as (Hx4 & _).
    destruct Hcase as [(_ & E & W')|(_ & E & W')];
      eexists; eexists; (split; [exact E|]);
      (split; [unfold NULL; lia|]);
      replace (heap_start st1 + total k1 + 4 - 4)
        with (heap_start st1 + total k1) by lia;
      destruct W' as [_ _ _ Hc _ _]; cbn [heap_start set_mem set_heap_end mem] in *;
      apply chain_app in Hc; destruct Hc as (_ & Hc); cbn [chain] in Hc;
      destruct Hc as (_ & Hr8 & Hh & _); rewrite Hh; now apply a_bit_hdr.
Qed.

Lemma release_then_alloc_witness :
  exists st' p,
    alloc 1000 (fst (free_block heap_16_40 65616)) 20 = Some (st', p) /\
    p <> NULL /\ a_bit (mem st' (p - 4)) = 1.
Proof.
  apply (release_then_alloc 1000 heap_16_40 65616 20).
  - exact heap_16_40_reachable.
  - vm_compute. reflexivity.
  - vm_compute. reflexivity.
  - lia.
  - vm_compute. discriminate.
Defined.

(** X21. The capacity of a fresh heap: right after a successful
    [init_heap], a request of at least one byte is served exactly when its
    block size is at most the page-rounded size minus 8, and the block
    handed out is then the first of the arena: the pointer returned is
    [base + 8], eight bytes into the mapping. *)
Theorem fresh_heap_capacity pagesize base st0 sz st fuel n st' p :
  8 < pagesize -> pagesize mod 8 = 0 ->
  0 <= base -> base mod pagesize = 0 ->
  page_round sz pagesize <= INT_MAX ->
  init_heap pagesize (Mapped base) st0 sz = (st, 0) ->
  1 <= n -> required_size n <= INT_MAX ->
  alloc fuel st n = Some (st', p) ->
  (p <> NULL <-> required_size n <= page_round sz pagesize - 8) /\
  (p <> NULL -> p = base + 8).
Proof.
  intros Hp Hp8 Hb Hbp Hfit Hi Hn Hrange Ha.
  destruct (init_heap_success _ _ _ _ _ Hi) as (Hf & Hsz & _).
  rewrite (init_heap_eq pagesize base st0 sz) in Hi by auto.
  pose proof (init_heap_wf pagesize base st0 sz (conj Hp Hp8) (conj Hb Hbp)
                Hsz Hfit) as Hwf.
  inversion Hi as [Est]. rewrite Est in Hwf. clear Hi.
  set (R := page_round sz pagesize) in *.
  assert (Hhs : heap_start st = base + 4) by (subst st; reflexivity).
  destruct (alloc_inv _ _ _ _ _ _ Hwf Hn Hrange Ha)
    as [(Hno & _ & E)|(l1 & l2 & s & Hbl & Hbest & Hpx & _)].
  - split; [|congruence]. split; [congruence|]. intro Hle.
    specialize (Hno (heap_start st) (R - 8)). cbn [layout In] in Hno.
    specialize (Hno (or_introl eq_refl)). lia.
  - cbv zeta in Hbest, Hpx.
    assert (l1 = [] /\ s = R - 8) as (-> & ->).
    { destruct l1 as [|b [|b' l1]]; inversion Hbl; auto. }
    cbn [total] in Hpx. destruct Hbest as (_ & Hle & _).
    split; [|lia]. split; [auto|]. intros _. unfold NULL. lia.
Qed.

Lemma fresh_heap_capacity_witness :
  (65544 <> NULL <-> required_size 4084 <= page_round 4096 4096 - 8) /\
  (65544 <> NULL -> 65544 = 65536 + 8).
Proof.
  apply (fresh_heap_capacity 4096 65536 (boot (fun _ => 0)) 4096 heap0
           100 4084 heap_full 65544).
  - lia.
  - reflexivity.
  - lia.
  - reflexivity.
  - vm_compute. discriminate.
  - reflexivity.
  - lia.
  - vm_compute. discriminate.
  - vm_compute. reflexivity.
Defined.
